(** * Identity system: on-chain registry and biometric ceremonies

    A shallow embedding of
    - [contracts/IdentityManager.sol]   (module [IdentityManager]),
    - [webauthn/webauthn-utils.js]      (module [WebAuthnUtils]),
    - the authentication router         (module [AuthRoutes]),
    followed by the properties of the specification that concern them. *)

From Stdlib Require Import ZArith NArith Lia.
From Stdlib.Strings Require Import Ascii String Byte.
From stdpp Require Import gmap strings list fin_maps pretty.

Local Open Scope string_scope.

(* ===================================================================== *)
(** * The registry contract                                               *)
(* ===================================================================== *)

Module IdentityManager.

(** An [address] is a 160-bit unsigned integer, a [uint256] a 256-bit one.
    No arithmetic is done on addresses; the only [uint256] arithmetic of
    the contract is the counting loop of [getTotalUsers]. *)
Abbreviation address := N.
Abbreviation uint256 := N.

Record Identity := mkIdentity {
  name : string;
  email : string;
  hashedAadhaar : string;
  ethAddress : address;
  registrationTime : uint256;
  isActive : bool
}.

(** The value a Solidity mapping holds at a key that was never written. *)
Definition zeroIdentity : Identity :=
  mkIdentity "" "" "" 0%N 0%N false.

Inductive Event :=
| IdentityRegistered (userAddress : address) (name email : string) (timestamp : uint256)
| IdentityUpdated (userAddress : address) (name email : string) (timestamp : uint256)
| IdentityDeactivated (userAddress : address) (timestamp : uint256).

(** Contract storage, with the log of emitted events. *)
Record Storage := mkStorage {
  identities : gmap address Identity;
  emailExists : gmap string bool;
  aadhaarExists : gmap string bool;
  registeredUsers : list address;
  events : list Event
}.

Definition emptyStorage : Storage := mkStorage ∅ ∅ ∅ [] [].

(** Reading a mapping: an absent key reads as the zero value. *)
Definition identityOf (s : Storage) (a : address) : Identity :=
  default zeroIdentity (identities s !! a).
Definition emailUsed (s : Storage) (e : string) : bool :=
  default false (emailExists s !! e).
Definition aadhaarUsed (s : Storage) (h : string) : bool :=
  default false (aadhaarExists s !! h).

(** The transaction context a call runs in. [msg.sender] is the account
    that signed the transaction or the contract that made the call; on
    the EVM it is never the zero address. *)
Record Env := mkEnv { msg_sender : address; block_timestamp : uint256 }.

(** A call either returns or reverts with the message of the failed
    [require]; a revert leaves the storage as it was. *)
Inductive Result (A : Type) :=
| Ok (a : A)
| Revert (reason : string).
Arguments Ok {A} a.
Arguments Revert {A} reason.

Definition require {A} (cond : bool) (reason : string) (k : Result A) : Result A :=
  if cond then k else Revert reason.

Notation "'require!' c 'else' m ; k" := (require c m k)
  (at level 10, c at level 9, m at level 9, k at level 200, only parsing).

Definition nonEmpty (s : string) : bool := negb (String.length s =? 0)%nat.

Definition registerIdentity (env : Env) (_name _email _hashedAadhaar : string)
    (s : Storage) : Result Storage :=
  require! (nonEmpty _name) else "Name cannot be empty";
  require! (nonEmpty _email) else "Email cannot be empty";
  require! (nonEmpty _hashedAadhaar) else "Hashed Aadhaar cannot be empty";
  require! (negb (isActive (identityOf s (msg_sender env)))) else "Identity already registered";
  require! (negb (emailUsed s _email)) else "Email already registered";
  require! (negb (aadhaarUsed s _hashedAadhaar)) else "Aadhaar already registered";
  Ok {| identities :=
          <[msg_sender env :=
              {| name := _name;
                 email := _email;
                 hashedAadhaar := _hashedAadhaar;
                 ethAddress := msg_sender env;
                 registrationTime := block_timestamp env;
                 isActive := true |}]> (identities s);
        emailExists := <[_email := true]> (emailExists s);
        aadhaarExists := <[_hashedAadhaar := true]> (aadhaarExists s);
        registeredUsers := registeredUsers s ++ [msg_sender env];
        events := events s ++
          [IdentityRegistered (msg_sender env) _name _email (block_timestamp env)] |}.

(** The modifier [validAddress]. *)
Definition validAddress {A} (_addr : address) (k : Result A) : Result A :=
  require! (negb (_addr =? 0)%N) else "Invalid address"; k.

Definition getIdentity (_userAddress : address) (s : Storage)
    : Result (string * string * string * address * uint256 * bool) :=
  validAddress _userAddress (
    require! (isActive (identityOf s _userAddress)) else "Identity not found or inactive";
    let identity := identityOf s _userAddress in
    Ok (name identity, email identity, hashedAadhaar identity,
        ethAddress identity, registrationTime identity, isActive identity)).

Definition isRegistered (_userAddress : address) (s : Storage) : Result bool :=
  validAddress _userAddress (Ok (isActive (identityOf s _userAddress))).

Definition isEmailRegistered (_email : string) (s : Storage) : bool :=
  emailUsed s _email.

Definition getTotalUsers (s : Storage) : uint256 :=
  fold_left (fun activeCount u =>
               if isActive (identityOf s u) then (activeCount + 1)%N else activeCount)
            (registeredUsers s) 0%N.

Definition getAllUsers (s : Storage) : list address :=
  List.filter (fun u => isActive (identityOf s u)) (registeredUsers s).

(** Storage states the contract can be in: it is deployed empty and
    [registerIdentity] is its only function that writes. *)
Inductive reachable : Storage -> Prop :=
| reachable_deploy : reachable emptyStorage
| reachable_register s env n e h s' :
    reachable s -> registerIdentity env n e h s = Ok s' -> reachable s'.

(** The failure classes the specification names. *)
Definition InvalidInput (r : string) : Prop :=
  r = "Name cannot be empty" \/ r = "Email cannot be empty"
  \/ r = "Hashed Aadhaar cannot be empty".
Definition AlreadyRegistered : string := "Identity already registered".
Definition EmailTaken : string := "Email already registered".
Definition IdAlreadyUsed : string := "Aadhaar already registered".

(** [a] holds an active record with e-mail [e] (resp. id hash [h]). *)
Definition activeWithEmail (s : Storage) (a : address) (e : string) : Prop :=
  isActive (identityOf s a) = true /\ email (identityOf s a) = e.
Definition activeWithId (s : Storage) (a : address) (h : string) : Prop :=
  isActive (identityOf s a) = true /\ hashedAadhaar (identityOf s a) = h.

(** The storage a successful registration leaves. *)
Definition registered (env : Env) (n e h : string) (s : Storage) : Storage :=
  {| identities :=
       <[msg_sender env := mkIdentity n e h (msg_sender env) (block_timestamp env) true]>
         (identities s);
     emailExists := <[e := true]> (emailExists s);
     aadhaarExists := <[h := true]> (aadhaarExists s);
     registeredUsers := registeredUsers s ++ [msg_sender env];
     events := events s ++ [IdentityRegistered (msg_sender env) n e (block_timestamp env)] |}.

(** The flags agree with the active records, and no two active records
    share an e-mail or an id hash. *)
Record consistent (s : Storage) : Prop := {
  active_email_marked a :
    isActive (identityOf s a) = true -> emailUsed s (email (identityOf s a)) = true;
  active_id_marked a :
    isActive (identityOf s a) = true -> aadhaarUsed s (hashedAadhaar (identityOf s a)) = true;
  marked_email_active e :
    emailUsed s e = true -> exists a, activeWithEmail s a e;
  marked_id_active h :
    aadhaarUsed s h = true -> exists a, activeWithId s a h;
  email_unique a b e :
    activeWithEmail s a e -> activeWithEmail s b e -> a = b;
  id_unique a b h :
    activeWithId s a h -> activeWithId s b h -> a = b
}.

(** Storage states reached from [s] by further successful registrations. *)
Inductive extends (s : Storage) : Storage -> Prop :=
| extends_refl : extends s s
| extends_step s1 env n e h s2 :
    extends s s1 -> registerIdentity env n e h s1 = Ok s2 -> extends s s2.

(** A registration attempt and the storage it leaves: a reverted call
    changes nothing. *)
Record Call := mkCall {
  call_env : Env;
  call_name : string;
  call_email : string;
  call_hashedAadhaar : string
}.

Definition attempt (s : Storage) (c : Call) : Storage :=
  match registerIdentity (call_env c) (call_name c) (call_email c)
          (call_hashedAadhaar c) s with
  | Ok s' => s'
  | Revert _ => s
  end.

Definition attempts (calls : list Call) (s : Storage) : Storage :=
  fold_left attempt calls s.

(** What the array of registered users holds in a reachable storage. *)
Record listed (s : Storage) : Prop := {
  listed_active a : a ∈ registeredUsers s <-> isActive (identityOf s a) = true;
  listed_once : NoDup (registeredUsers s);
  listed_self a : isActive (identityOf s a) = true -> ethAddress (identityOf s a) = a;
  listed_filled a :
    isActive (identityOf s a) = true ->
    name (identityOf s a) <> "" /\ email (identityOf s a) <> ""
    /\ hashedAadhaar (identityOf s a) <> "";
  listed_events :
    events s =
    map (fun a => IdentityRegistered a (name (identityOf s a)) (email (identityOf s a))
                    (registrationTime (identityOf s a)))
        (registeredUsers s)
}.

(** The storage after a sequence of attempts on a fresh contract. *)
Definition ledgerAfter (calls : list Call) : Storage :=
  attempts calls emptyStorage.

Definition sampleCalls : list Call :=
  [ mkCall (mkEnv 10 1700000000) "Asha" "a@x.com" "H1";
    mkCall (mkEnv 11 1700000100) "Ben" "a@x.com" "H2";
    mkCall (mkEnv 12 1700000200) "Cy" "c@x.com" "H1";
    mkCall (mkEnv 13 1700000300) "Di" "d@x.com" "H4" ].

(** A storage with one record, used to instantiate the statements. *)
Definition sampleEnv : Env := mkEnv 10 1700000000.
Definition sampleStorage : Storage :=
  registered sampleEnv "Asha" "a@x.com" "H1" emptyStorage.

End IdentityManager.

(* ===================================================================== *)
(** * JavaScript values and the runtime's base64 codec                    *)
(* ===================================================================== *)

(** Strings are sequences of 8-bit code units. *)

Module JS.

(** A value decoded from a JSON request body. Numbers are only ever
    tested for truthiness and compared with [===]; integers stand for
    them. *)
#[local] Unset Elimination Schemes.
Inductive value :=
| Undefined
| Null
| Bool (b : bool)
| Num (n : Z)
| Str (s : string)
| Arr (items : list value)
| Obj (fields : list (string * value)).
#[local] Set Elimination Schemes.

(** [!v] is [negb (truthy v)]. *)
Definition truthy (v : value) : bool :=
  match v with
  | Undefined | Null => false
  | Bool b => b
  | Num n => negb (n =? 0)%Z
  | Str s => negb (String.eqb s "")
  | Arr _ | Obj _ => true
  end.

(** The last binding of a key wins, as in [JSON.parse]. *)
Fixpoint field (k : string) (fields : list (string * value)) : value :=
  match fields with
  | [] => Undefined
  | (k', v) :: rest =>
      match field k rest with
      | Undefined => if String.eqb k' k then v else Undefined
      | later => later
      end
  end.

(** [v.k] for the property names the code reads ([id], [response],
    [clientDataJSON], [attestationObject], [challenge], [origin]): none
    of them is defined on a primitive or an array. [None] is the
    TypeError of reading a property of [undefined] or [null]. *)
Definition get (v : value) (k : string) : option value :=
  match v with
  | Undefined | Null => None
  | Obj fields => Some (field k fields)
  | _ => Some Undefined
  end.

(** [a === b]. The two sides always come from different parses, so two
    arrays or two objects are never the same reference. *)
Definition strict_eq (a b : value) : bool :=
  match a, b with
  | Undefined, Undefined | Null, Null => true
  | Bool x, Bool y => Bool.eqb x y
  | Num x, Num y => (x =? y)%Z
  | Str x, Str y => String.eqb x y
  | _, _ => false
  end.

(** The message of a thrown error: one the code wrote, or one the engine
    chose for a TypeError or SyntaxError. *)
Inductive error :=
| Message (text : string)
| EngineMessage.

(** A computation inside [try]: it completes or throws. *)
Inductive completion (A : Type) :=
| Normal (a : A)
| Throw (e : error).
Arguments Normal {A} a.
Arguments Throw {A} e.

Definition bind {A B} (c : completion A) (k : A -> completion B) : completion B :=
  match c with
  | Normal a => k a
  | Throw e => Throw e
  end.

Definition prop (v : value) (k : string) : completion value :=
  match get v k with
  | Some x => Normal x
  | None => Throw EngineMessage
  end.

(** [s.replace(/c/g, d)] for a one-character pattern and replacement. *)
Fixpoint replace_all (c d : ascii) (s : string) : string :=
  match s with
  | EmptyString => EmptyString
  | String x rest =>
      String (if Ascii.eqb x c then d else x) (replace_all c d rest)
  end.

(** [s.replace(/c/g, '')]. *)
Fixpoint remove_all (c : ascii) (s : string) : string :=
  match s with
  | EmptyString => EmptyString
  | String x rest =>
      if Ascii.eqb x c then remove_all c rest else String x (remove_all c rest)
  end.

(** [c.repeat(n)]. *)
Fixpoint repeat (c : ascii) (n : nat) : string :=
  match n with
  | O => EmptyString
  | S n' => String c (repeat c n')
  end.

End JS.

Notation "x <- c ;;; k" := (JS.bind c (fun x => k))
  (at level 100, c at next level, right associativity, only parsing).
Notation "'throw_if' b 'then' m ;;; k" :=
  (if b then JS.Throw (JS.Message m) else k)
  (at level 100, b at level 9, m at level 9, right associativity, only parsing).

(** Node's [Buffer], as far as the code uses it: the base64 codec. *)
Module Buffer.

Abbreviation t := (list byte).

(** The character of a sextet in the base64 alphabet [A-Za-z0-9+/]. *)
Definition b64_char (n : N) : ascii :=
  if (n <? 26)%N then ascii_of_N (65 + n)
  else if (n <? 52)%N then ascii_of_N (97 + (n - 26))
  else if (n <? 62)%N then ascii_of_N (48 + (n - 52))
  else if (n =? 62)%N then "+"%char
  else "/"%char.

(** The sextet of a character; the decoder also reads the URL-safe
    [-] and [_]. *)
Definition b64_index (c : ascii) : option N :=
  let n := N_of_ascii c in
  if ((65 <=? n) && (n <=? 90))%N then Some (n - 65)%N
  else if ((97 <=? n) && (n <=? 122))%N then Some (n - 97 + 26)%N
  else if ((48 <=? n) && (n <=? 57))%N then Some (n - 48 + 52)%N
  else if ((n =? 43) || (n =? 45))%N then Some 62%N
  else if ((n =? 47) || (n =? 95))%N then Some 63%N
  else None.

Definition byte_of_N (n : N) : byte :=
  default x00 (Byte.of_N (n mod 256)).

(** Bytes to sextets, three bytes to four sextets; a last group of one
    or two bytes gives two or three sextets. *)
Fixpoint to_sextets (b : t) : list N :=
  match b with
  | x :: y :: z :: rest =>
      let x := Byte.to_N x in let y := Byte.to_N y in let z := Byte.to_N z in
      (x / 4 :: (x mod 4) * 16 + y / 16 :: (y mod 16) * 4 + z / 64 :: z mod 64
         :: to_sextets rest)%N
  | [x; y] =>
      let x := Byte.to_N x in let y := Byte.to_N y in
      [x / 4; (x mod 4) * 16 + y / 16; (y mod 16) * 4]%N
  | [x] =>
      let x := Byte.to_N x in
      [x / 4; (x mod 4) * 16]%N
  | [] => []
  end.

(** Sextets to bytes; a last group of two or three sextets gives one or
    two bytes, a single left-over sextet none. *)
Fixpoint of_sextets (l : list N) : t :=
  match l with
  | a :: b :: c :: d :: rest =>
      byte_of_N (a * 4 + b / 16) :: byte_of_N ((b mod 16) * 16 + c / 4)
        :: byte_of_N ((c mod 4) * 64 + d) :: of_sextets rest
  | [a; b; c] => [byte_of_N (a * 4 + b / 16); byte_of_N ((b mod 16) * 16 + c / 4)]
  | [a; b] => [byte_of_N (a * 4 + b / 16)]
  | _ => []
  end%N.

Fixpoint chars (l : list ascii) : string :=
  match l with
  | [] => EmptyString
  | c :: rest => String c (chars rest)
  end.

(** [buffer.toString('base64')]: the alphabet characters of the sextets,
    padded with [=] to a multiple of four characters. *)
Definition toString_base64 (b : t) : string :=
  chars (map b64_char (to_sextets b))
    ++ JS.repeat "=" ((3 - length b mod 3) mod 3).

(** [buffer.toString('base64url')]: URL-safe alphabet, no padding. *)
Definition toString_base64url (b : t) : string :=
  JS.replace_all "/" "_" (JS.replace_all "+" "-"
    (chars (map b64_char (to_sextets b)))).

(** The sextets the decoder reads from a string: it skips the characters
    outside the alphabet and stops at the first [=]. *)
Fixpoint read_sextets (s : string) : list N :=
  match s with
  | EmptyString => []
  | String c rest =>
      if Ascii.eqb c "=" then []
      else match b64_index c with
           | Some v => v :: read_sextets rest
           | None => read_sextets rest
           end
  end.

(** [Buffer.from(s, 'base64')]. *)
Definition from_base64 (s : string) : t := of_sextets (read_sextets s).

(** What the two replacements of [bufferToBase64URL] do to one
    character, and what the two of [base64URLToBuffer] do. *)
Definition urlSafe (c : ascii) : ascii :=
  let c := if Ascii.eqb c "+" then "-"%char else c in
  if Ascii.eqb c "/" then "_"%char else c.
Definition urlUnsafe (c : ascii) : ascii :=
  let c := if Ascii.eqb c "-" then "+"%char else c in
  if Ascii.eqb c "_" then "/"%char else c.

(** The class [[A-Za-z0-9_-]]. *)
Definition isUrlSafeChar (c : ascii) : bool :=
  let n := N_of_ascii c in
  ((65 <=? n) && (n <=? 90) || (97 <=? n) && (n <=? 122) || (48 <=? n) && (n <=? 57)
   || (n =? 45) || (n =? 95))%N.

End Buffer.

(* ===================================================================== *)
(** * webauthn-utils.js                                                   *)
(* ===================================================================== *)

Module WebAuthnUtils.

(** The fields the constructor reads from the environment. *)
Record t := mk {
  rpName : string;
  rpId : string;
  origin : string
}.

(** The instance built when the environment sets none of them. *)
Definition defaults : t :=
  mk "Decentralized Identity System" "localhost" "http://localhost:3000".

Record PubKeyCredParam := { alg : Z; param_type : string }.

Record RegistrationOptions := {
  reg_challenge : string;
  rp_name : string;
  rp_id : string;
  user_id : string;
  user_name : string;
  user_displayName : string;
  pubKeyCredParams : list PubKeyCredParam;
  authenticatorAttachment : string;
  reg_userVerification : string;
  requireResidentKey : bool;
  reg_timeout : Z;
  attestation : string
}.

Record AllowedCredential := {
  cred_id : JS.value;
  cred_type : string;
  transports : list string
}.

Record AuthenticationOptions := {
  auth_challenge : string;
  auth_timeout : Z;
  auth_rpId : string;
  allowCredentials : list AllowedCredential;
  auth_userVerification : string
}.

(** [generateRegistrationOptions]; [userId] and [challenge] are the two
    results of [crypto.randomBytes(32)]. *)
Definition generateRegistrationOptions (this : t) (userId challenge : Buffer.t)
    (userEmail userName : string) : RegistrationOptions :=
  {| reg_challenge := Buffer.toString_base64url challenge;
     rp_name := rpName this;
     rp_id := rpId this;
     user_id := Buffer.toString_base64url userId;
     user_name := userEmail;
     user_displayName := userName;
     pubKeyCredParams :=
       [ {| alg := -7; param_type := "public-key" |};
         {| alg := -257; param_type := "public-key" |} ];
     authenticatorAttachment := "platform";
     reg_userVerification := "required";
     requireResidentKey := false;
     reg_timeout := 60000;
     attestation := "direct" |}.

(** [generateAuthenticationOptions]; [challenge] is the result of
    [crypto.randomBytes(32)]. *)
Definition generateAuthenticationOptions (this : t) (challenge : Buffer.t)
    (allowCredentials : list JS.value) : AuthenticationOptions :=
  {| auth_challenge := Buffer.toString_base64url challenge;
     auth_timeout := 60000;
     auth_rpId := rpId this;
     allowCredentials :=
       map (fun credId =>
              {| cred_id := credId;
                 cred_type := "public-key";
                 transports := ["internal"; "hybrid"] |}) allowCredentials;
     auth_userVerification := "required" |}.

(** [base64URLToBuffer] on a string. *)
Definition base64URLToBuffer (base64url : string) : Buffer.t :=
  let base64 := JS.replace_all "_" "/" (JS.replace_all "-" "+" base64url) in
  let padded := base64 ++ JS.repeat "=" ((4 - String.length base64 mod 4) mod 4) in
  Buffer.from_base64 padded.

(** [base64URLToBuffer] on a value of the request: anything but a string
    has no [replace] method, and the call throws a TypeError. *)
Definition base64URLToBuffer_value (v : JS.value) : JS.completion Buffer.t :=
  match v with
  | JS.Str s => JS.Normal (base64URLToBuffer s)
  | _ => JS.Throw JS.EngineMessage
  end.

(** [bufferToBase64URL]. *)
Definition bufferToBase64URL (buffer : Buffer.t) : string :=
  JS.remove_all "="
    (JS.replace_all "/" "_" (JS.replace_all "+" "-" (Buffer.toString_base64 buffer))).

(** What [verifyRegistrationCredential] returns: [{verified: true,
    credentialId, publicKey, counter}] or [{verified: false, error}]. *)
Inductive RegistrationVerification :=
| RegVerified (credentialId publicKey : JS.value) (counter : Z)
| RegFailed (error : JS.error).

(** What [verifyAuthenticationCredential] returns: [{verified: true,
    counter}] or [{verified: false, error}]. *)
Inductive AuthenticationVerification :=
| AuthVerified (counter : Z)
| AuthFailed (error : JS.error).

(** The fields of a stored credential [verifyAuthenticationCredential]
    reads. The counter is a JavaScript number that starts at 0 and only
    ever has 1 added to it; such numbers are exact integers. *)
Record StoredCredential := {
  credentialId : JS.value;
  counter : Z
}.

Section Verification.

(** [JSON.parse(buffer.toString())]: the runtime's UTF-8 decoder and JSON
    parser; [None] is the SyntaxError of a text that is not JSON. *)
Variable JSON_parse : Buffer.t -> option JS.value.

Definition parseClientData (buf : Buffer.t) : JS.completion JS.value :=
  match JSON_parse buf with
  | Some v => JS.Normal v
  | None => JS.Throw JS.EngineMessage
  end.

(** [!credential || !credential.id || !credential.response]. *)
Definition badFormat (credential : JS.value) : bool :=
  negb (JS.truthy credential)
  || negb (JS.truthy (default JS.Undefined (JS.get credential "id")))
  || negb (JS.truthy (default JS.Undefined (JS.get credential "response"))).

Definition verifyRegistrationCredential (this : t) (credential : JS.value)
    (expectedChallenge : string) : RegistrationVerification :=
  let attempt : JS.completion RegistrationVerification :=
    throw_if (badFormat credential) then "Invalid credential format" ;;;
    id <- JS.prop credential "id" ;;;
    response <- JS.prop credential "response" ;;;
    encoded <- JS.prop response "clientDataJSON" ;;;
    clientDataJSON <- base64URLToBuffer_value encoded ;;;
    clientData <- parseClientData clientDataJSON ;;;
    challenge <- JS.prop clientData "challenge" ;;;
    throw_if (negb (JS.strict_eq challenge (JS.Str expectedChallenge)))
      then "Challenge mismatch" ;;;
    org <- JS.prop clientData "origin" ;;;
    throw_if (negb (JS.strict_eq org (JS.Str (origin this))))
      then "Origin mismatch" ;;;
    attestationObject <- JS.prop response "attestationObject" ;;;
    JS.Normal (RegVerified id attestationObject 0)
  in
  match attempt with
  | JS.Normal r => r
  | JS.Throw e => RegFailed e
  end.

Definition verifyAuthenticationCredential (this : t) (credential : JS.value)
    (expectedChallenge : string) (storedCredential : StoredCredential)
    : AuthenticationVerification :=
  let attempt : JS.completion AuthenticationVerification :=
    throw_if (badFormat credential) then "Invalid credential format" ;;;
    id <- JS.prop credential "id" ;;;
    throw_if (negb (JS.strict_eq id (credentialId storedCredential)))
      then "Credential ID mismatch" ;;;
    response <- JS.prop credential "response" ;;;
    encoded <- JS.prop response "clientDataJSON" ;;;
    clientDataJSON <- base64URLToBuffer_value encoded ;;;
    clientData <- parseClientData clientDataJSON ;;;
    challenge <- JS.prop clientData "challenge" ;;;
    throw_if (negb (JS.strict_eq challenge (JS.Str expectedChallenge)))
      then "Challenge mismatch" ;;;
    org <- JS.prop clientData "origin" ;;;
    throw_if (negb (JS.strict_eq org (JS.Str (origin this))))
      then "Origin mismatch" ;;;
    JS.Normal (AuthVerified (counter storedCredential + 1))
  in
  match attempt with
  | JS.Normal r => r
  | JS.Throw e => AuthFailed e
  end.

(** What a credential response must carry to pass the checks shared by
    both verifications. *)
Definition accepted (this : t) (credential : JS.value) (expectedChallenge : string)
    (id publicKey : JS.value) : Prop :=
  JS.truthy credential = true
  /\ JS.get credential "id" = Some id /\ JS.truthy id = true
  /\ exists response encoded clientData,
       JS.get credential "response" = Some response /\ JS.truthy response = true
       /\ JS.get response "clientDataJSON" = Some (JS.Str encoded)
       /\ JSON_parse (base64URLToBuffer encoded) = Some clientData
       /\ JS.get clientData "challenge" = Some (JS.Str expectedChallenge)
       /\ JS.get clientData "origin" = Some (JS.Str (origin this))
       /\ JS.get response "attestationObject" = Some publicKey.

End Verification.

End WebAuthnUtils.

(* ===================================================================== *)
(** * The authentication router                                           *)
(* ===================================================================== *)

Module AuthRoutes.

(** An entry of the [challenges] map. [name] is [undefined] in an entry
    stored by [/login/begin]. *)
Record ChallengeData := {
  challenge : string;
  email : string;
  name : option string;
  expires : Z
}.

(** What [/register/complete] stores under [webauthn_<email>]. The item
    is the [JSON.stringify] of this object; every reader applies
    [JSON.parse] to it and sees the fields as they were written. *)
Record CredentialData := {
  credentialId : JS.value;
  publicKey : JS.value;
  counter : Z;
  cred_email : string;
  cred_name : option string;
  registeredAt : Z
}.

(** The two stores of the router: the in-memory [challenges] map and the
    [localStorage] of stored credentials. *)
Record State := {
  challenges : gmap string ChallengeData;
  localStorage : gmap string CredentialData
}.

Definition initial : State := {| challenges := ∅; localStorage := ∅ |}.

Record TokenPayload := {
  tok_email : string;
  tok_name : option string;
  authenticatedAt : Z;
  authMethod : string
}.

Record SignOptions := {
  expiresIn : string;
  issuer : string;
  audience : string
}.

Inductive Body :=
| Error (error : JS.error)
| RegistrationOptionsSent (options : WebAuthnUtils.RegistrationOptions) (challengeKey : string)
| AuthenticationOptionsSent (options : WebAuthnUtils.AuthenticationOptions) (challengeKey : string)
| RegistrationCompleted
| Authenticated (token : string) (user_email : string) (user_name : option string).

Record Response := { status : nat; body : Body }.

(** [res.status(code).json({ error: text })]. *)
Definition fail (code : nat) (text : string) : Response :=
  {| status := code; body := Error (JS.Message text) |}.
(** [res.json(body)]. *)
Definition ok (b : Body) : Response := {| status := 200; body := b |}.

(** [verification.error || fallback]. *)
Definition errorOr (e : JS.error) (fallback : string) : JS.error :=
  match e with
  | JS.Message text => if String.eqb text "" then JS.Message fallback else e
  | JS.EngineMessage => e
  end.

(** A string of the request body is falsy when it is absent or empty. *)
Definition missing (s : string) : bool := String.eqb s "".

(** The class [\s] among 8-bit code units. *)
Definition isSpace (c : ascii) : bool :=
  let n := N_of_ascii c in
  ((9 <=? n) && (n <=? 13) || (n =? 32) || (n =? 160))%N.

(** The class [[^\s@]]. *)
Definition plainChar (c : ascii) : bool :=
  negb (isSpace c) && negb (Ascii.eqb c "@").

Fixpoint splitAt (c : ascii) (l : list ascii) : option (list ascii * list ascii) :=
  match l with
  | [] => None
  | x :: rest =>
      if Ascii.eqb x c then Some ([], rest)
      else match splitAt c rest with
           | Some (before, after) => Some (x :: before, after)
           | None => None
           end
  end.

(** [/^[^\s@]+@[^\s@]+\.[^\s@]+$/.test(email)]: one [@] with a non-empty
    part before it and, after it, a dot that is neither first nor last;
    no white space anywhere. *)
Definition emailRegex_test (email : string) : bool :=
  match splitAt "@" (list_ascii_of_string email) with
  | Some (local, domain) =>
      negb (length local =? 0)%nat
      && forallb plainChar local && forallb plainChar domain
      && match domain with
         | [] => false
         | _ :: rest => existsb (Ascii.eqb ".") (removelast rest)
         end
  | None => false
  end.

Definition storageKey (email : string) : string := "webauthn_" ++ email.

(** [cleanupExpiredChallenges], run with [now = Date.now()]. *)
Definition cleanupExpiredChallenges (now : Z) (s : State) : State :=
  {| challenges := filter (fun kd => ¬ (now > expires kd.2)%Z) (challenges s);
     localStorage := localStorage s |}.

Section Handlers.

(** The instance [webauthn] of [WebAuthnUtils], the runtime's
    [JSON.parse], and [jwt.sign] of the [jsonwebtoken] package with
    [process.env.JWT_SECRET]. With the secret configured [jwt.sign]
    returns a token for every payload built here, the stores accept every
    write, and no handler reaches its [catch] branch. *)
Variable webauthn : WebAuthnUtils.t.
Variable JSON_parse : Buffer.t -> option JS.value.
Variable JWT_SECRET : string.
Variable jwt_sign : TokenPayload -> string -> SignOptions -> string.

(** [POST /register/begin]. [userId] and [random] are the random bytes
    drawn by [generateRegistrationOptions]; [now] and [now'] are the two
    readings of [Date.now()], for the key and for the expiry. *)
Definition register_begin (email name : string) (userId random : Buffer.t)
    (now now' : Z) (s : State) : Response * State :=
  if missing email || missing name then
    (fail 400 "Email and name are required", s)
  else if negb (emailRegex_test email) then
    (fail 400 "Invalid email format", s)
  else match localStorage s !! storageKey email with
  | Some existingCreds =>
      (fail 400 "User already has biometric credentials registered", s)
  | None =>
      let options :=
        WebAuthnUtils.generateRegistrationOptions webauthn userId random email name in
      let challengeKey := "challenge_" ++ email ++ "_" ++ pretty now in
      (ok (RegistrationOptionsSent options challengeKey),
       {| challenges :=
            <[challengeKey :=
                {| challenge := WebAuthnUtils.reg_challenge options;
                   email := email;
                   name := Some name;
                   expires := now' + 5 * 60 * 1000 |}]> (challenges s);
          localStorage := localStorage s |})
  end.

(** [POST /register/complete]. [now] is the reading of [Date.now()] in
    the expiry test, [registered] the time of [new Date()]. *)
Definition register_complete (credential : JS.value) (challengeKey : string)
    (now registered : Z) (s : State) : Response * State :=
  if negb (JS.truthy credential) || missing challengeKey then
    (fail 400 "Credential and challenge key are required", s)
  else match challenges s !! challengeKey with
  | None => (fail 400 "Invalid or expired challenge", s)
  | Some challengeData =>
      let consumed :=
        {| challenges := delete challengeKey (challenges s);
           localStorage := localStorage s |} in
      if (now >? expires challengeData)%Z then
        (fail 400 "Challenge expired", consumed)
      else
        match WebAuthnUtils.verifyRegistrationCredential JSON_parse webauthn
                credential (challenge challengeData) with
        | WebAuthnUtils.RegFailed e =>
            ({| status := 400;
                body := Error (errorOr e "Registration verification failed") |},
             consumed)
        | WebAuthnUtils.RegVerified id key cnt =>
            let credentialData :=
              {| credentialId := id;
                 publicKey := key;
                 counter := cnt;
                 cred_email := email challengeData;
                 cred_name := name challengeData;
                 registeredAt := registered |} in
            (ok RegistrationCompleted,
             {| challenges := delete challengeKey (challenges s);
                localStorage :=
                  <[storageKey (email challengeData) := credentialData]>
                    (localStorage s) |})
        end
  end.

(** [POST /login/begin]. *)
Definition login_begin (email : string) (random : Buffer.t) (now now' : Z)
    (s : State) : Response * State :=
  if missing email then
    (fail 400 "Email is required", s)
  else if negb (emailRegex_test email) then
    (fail 400 "Invalid email format", s)
  else match localStorage s !! storageKey email with
  | None => (fail 404 "No biometric credentials found for this user", s)
  | Some credential =>
      let options :=
        WebAuthnUtils.generateAuthenticationOptions webauthn random
          [credentialId credential] in
      let challengeKey := "auth_challenge_" ++ email ++ "_" ++ pretty now in
      (ok (AuthenticationOptionsSent options challengeKey),
       {| challenges :=
            <[challengeKey :=
                {| challenge := WebAuthnUtils.auth_challenge options;
                   email := email;
                   name := None;
                   expires := now' + 5 * 60 * 1000 |}]> (challenges s);
          localStorage := localStorage s |})
  end.

(** [POST /login/complete]. [now] is the reading of [Date.now()] in the
    expiry test, [authenticated] the one put in the token. *)
Definition login_complete (credential : JS.value) (challengeKey : string)
    (now authenticated : Z) (s : State) : Response * State :=
  if negb (JS.truthy credential) || missing challengeKey then
    (fail 400 "Credential and challenge key are required", s)
  else match challenges s !! challengeKey with
  | None => (fail 400 "Invalid or expired challenge", s)
  | Some challengeData =>
      let consumed :=
        {| challenges := delete challengeKey (challenges s);
           localStorage := localStorage s |} in
      if (now >? expires challengeData)%Z then
        (fail 400 "Challenge expired", consumed)
      else match localStorage s !! storageKey (email challengeData) with
      | None => (fail 404 "Stored credential not found", consumed)
      | Some storedCredential =>
          match WebAuthnUtils.verifyAuthenticationCredential JSON_parse webauthn
                  credential (challenge challengeData)
                  {| WebAuthnUtils.credentialId := credentialId storedCredential;
                     WebAuthnUtils.counter := counter storedCredential |} with
          | WebAuthnUtils.AuthFailed e =>
              ({| status := 401;
                  body := Error (errorOr e "Authentication verification failed") |},
               consumed)
          | WebAuthnUtils.AuthVerified cnt =>
              let updated :=
                {| credentialId := credentialId storedCredential;
                   publicKey := publicKey storedCredential;
                   counter := cnt;
                   cred_email := cred_email storedCredential;
                   cred_name := cred_name storedCredential;
                   registeredAt := registeredAt storedCredential |} in
              let tokenPayload :=
                {| tok_email := email challengeData;
                   tok_name := cred_name storedCredential;
                   authenticatedAt := authenticated;
                   authMethod := "webauthn" |} in
              let token :=
                jwt_sign tokenPayload JWT_SECRET
                  {| expiresIn := "24h";
                     issuer := "decentralized-identity-system";
                     audience := "user" |} in
              (ok (Authenticated token (email challengeData)
                     (cred_name storedCredential)),
               {| challenges := delete challengeKey (challenges s);
                  localStorage :=
                    <[storageKey (email challengeData) := updated]>
                      (localStorage s) |})
          end
      end
  end.

(** One thing that happens to the router: a request is served, or the
    periodic sweep runs. *)
Inductive Action :=
| RegisterBegin (email name : string) (userId random : Buffer.t) (now now' : Z)
| RegisterComplete (credential : JS.value) (challengeKey : string) (now registered : Z)
| LoginBegin (email : string) (random : Buffer.t) (now now' : Z)
| LoginComplete (credential : JS.value) (challengeKey : string) (now authenticated : Z)
| Sweep (now : Z).

Definition run (a : Action) (s : State) : option Response * State :=
  match a with
  | RegisterBegin e n u r t t' => let '(r, s') := register_begin e n u r t t' s in (Some r, s')
  | RegisterComplete c k t t' => let '(r, s') := register_complete c k t t' s in (Some r, s')
  | LoginBegin e r t t' => let '(r, s') := login_begin e r t t' s in (Some r, s')
  | LoginComplete c k t t' => let '(r, s') := login_complete c k t t' s in (Some r, s')
  | Sweep t => (None, cleanupExpiredChallenges t s)
  end.

Definition runAll (l : list Action) (s : State) : State :=
  fold_left (fun s a => (run a s).2) l s.

(** The answers the specification calls [NotFound] and [Expired] of a
    challenge. *)
Definition NotFound : Response := fail 400 "Invalid or expired challenge".
Definition Expired : Response := fail 400 "Challenge expired".

(** A [complete] request that reaches the lookup of its challenge: its
    credential is truthy and its challenge key is not empty. *)
Definition wellFormed (credential : JS.value) (challengeKey : string) : Prop :=
  JS.truthy credential = true /\ challengeKey <> "".

Definition succeeded (r : Response) : Prop :=
  status r = 200.

(** The state a consumed challenge leaves: the entry is gone, the stored
    credentials are as they were. *)
Definition consume (challengeKey : string) (s : State) : State :=
  {| challenges := delete challengeKey (challenges s);
     localStorage := localStorage s |}.

(** The key a [begin] request stores its challenge under, when it gets
    that far. *)
Definition mintedKey (a : Action) : option string :=
  match a with
  | RegisterBegin e _ _ _ now _ => Some ("challenge_" ++ e ++ "_" ++ pretty now)
  | LoginBegin e _ now _ => Some ("auth_challenge_" ++ e ++ "_" ++ pretty now)
  | _ => None
  end.

(** The stored credential after an authentication: only the counter
    moved. *)
Definition bumped (c : CredentialData) : CredentialData :=
  {| credentialId := credentialId c;
     publicKey := publicKey c;
     counter := counter c + 1;
     cred_email := cred_email c;
     cred_name := cred_name c;
     registeredAt := registeredAt c |}.

End Handlers.

(** A small run of the router, used to instantiate the statements. *)
Definition sampleChallenge : string := "c29tZS1yYW5kb20tY2hhbGxlbmdl".

Definition sampleParse (buf : Buffer.t) : option JS.value :=
  Some (JS.Obj [("challenge", JS.Str sampleChallenge);
                ("origin", JS.Str "http://localhost:3000")]).

Definition foreignParse (buf : Buffer.t) : option JS.value :=
  Some (JS.Obj [("challenge", JS.Str sampleChallenge);
                ("origin", JS.Str "http://evil.example")]).

Definition sampleSign (p : TokenPayload) (secret : string) (o : SignOptions) : string :=
  "header.payload.signature".

Definition sampleCredential : JS.value :=
  JS.Obj [("id", JS.Str "cred-1");
          ("response", JS.Obj [("clientDataJSON", JS.Str "e30")])].

Definition sampleKey : string := "auth_challenge_a@x.com_1700000000000".

Definition sampleState : State :=
  {| challenges :=
       {[ sampleKey :=
            {| challenge := sampleChallenge; email := "a@x.com"; name := None;
               expires := 1700000300000 |} ]};
     localStorage :=
       {[ storageKey "a@x.com" :=
            {| credentialId := JS.Str "cred-1"; publicKey := JS.Undefined;
               counter := 4; cred_email := "a@x.com"; cred_name := Some "Asha";
               registeredAt := 1690000000000 |} ]} |}.

(** [POST /check-credentials] answers an error or [{success: true,
    hasCredentials}]. *)
Inductive CheckBody :=
| CheckError (error : string)
| HasCredentials (hasCredentials : bool).

Record CheckResponse := { check_status : nat; check_body : CheckBody }.

Definition check_credentials (email : string) (s : State) : CheckResponse :=
  if missing email then
    {| check_status := 400; check_body := CheckError "Email is required" |}
  else if negb (emailRegex_test email) then
    {| check_status := 400; check_body := CheckError "Invalid email format" |}
  else
    {| check_status := 200;
       check_body :=
         HasCredentials
           (match localStorage s !! storageKey email with
            | Some credentialData => true
            | None => false
            end) |}.

(** [header.split(' ')[1]]: the text between the first space and the
    next one (or the end); [undefined] when the header has no space. *)
Definition secondField (header : string) : option string :=
  match splitAt " " (list_ascii_of_string header) with
  | None => None
  | Some (_, rest) =>
      match splitAt " " rest with
      | Some (field, _) => Some (string_of_list_ascii field)
      | None => Some (string_of_list_ascii rest)
      end
  end.

Section Protected.

(** [jwt.verify(token, process.env.JWT_SECRET)] of the [jsonwebtoken]
    package: the decoded payload, or [None] when it throws. *)
Variable Decoded : Type.
Variable JWT_SECRET : string.
Variable jwt_verify : string -> string -> option Decoded.

(** What the middleware does with a request: it answers, or sets
    [req.user] and calls [next()]. *)
Inductive Gate :=
| Answer (code : nat) (error : string)
| Next (user : Decoded).

(** [verifyToken]; [authorization] is [req.headers.authorization]. *)
Definition verifyToken (authorization : option string) : Gate :=
  let token :=
    match authorization with
    | None => None
    | Some authHeader => if missing authHeader then None else secondField authHeader
    end in
  match token with
  | None => Answer 401 "Access token required"
  | Some token =>
      if missing token then Answer 401 "Access token required"
      else match jwt_verify token JWT_SECRET with
           | Some decoded => Next decoded
           | None => Answer 403 "Invalid or expired token"
           end
  end.

End Protected.


(** A parser standing for a client that echoes a given challenge from
    the configured origin. *)
Definition echoParse (challenge : string) (buf : Buffer.t) : option JS.value :=
  Some (JS.Obj [("challenge", JS.Str challenge);
                ("origin", JS.Str "http://localhost:3000")]).


End AuthRoutes.

(* ===================================================================== *)
(** * Properties of the registry                                          *)
(* ===================================================================== *)

Module Registry.
Import IdentityManager.

Lemma nonEmpty_true s : nonEmpty s = true <-> s <> "".
Proof. destruct s; cbn; split; congruence. Qed.

Lemma nonEmpty_false s : nonEmpty s = false <-> s = "".
Proof. destruct s; cbn; split; congruence. Qed.

(** What a successful call has checked and written. *)
Lemma registerIdentity_Ok env n e h s s' :
  registerIdentity env n e h s = Ok s' <->
  n <> "" /\ e <> "" /\ h <> ""
  /\ isActive (identityOf s (msg_sender env)) = false
  /\ emailUsed s e = false /\ aadhaarUsed s h = false
  /\ s' = registered env n e h s.
Proof.
  unfold registerIdentity, require, registered.
  rewrite <- !nonEmpty_true.
  destruct (nonEmpty n), (nonEmpty e), (nonEmpty h),
    (isActive (identityOf s (msg_sender env))),
    (emailUsed s e), (aadhaarUsed s h); cbn;
    split; try (intros [=]; subst); try (intros (? & ? & ? & ? & ? & ? & ?));
    subst; repeat split; congruence.
Qed.

Lemma identityOf_registered env n e h s a :
  identityOf (registered env n e h s) a =
  if decide (msg_sender env = a)
  then mkIdentity n e h (msg_sender env) (block_timestamp env) true
  else identityOf s a.
Proof.
  unfold identityOf, registered; cbn.
  rewrite lookup_insert. destruct (decide (msg_sender env = a)); reflexivity.
Qed.

Lemma emailUsed_registered env n e h s x :
  emailUsed (registered env n e h s) x =
  if decide (e = x) then true else emailUsed s x.
Proof.
  unfold emailUsed, registered; cbn.
  rewrite lookup_insert. destruct (decide (e = x)); reflexivity.
Qed.

Lemma aadhaarUsed_registered env n e h s x :
  aadhaarUsed (registered env n e h s) x =
  if decide (h = x) then true else aadhaarUsed s x.
Proof.
  unfold aadhaarUsed, registered; cbn.
  rewrite lookup_insert. destruct (decide (h = x)); reflexivity.
Qed.

Lemma consistent_empty : consistent emptyStorage.
Proof.
  split; unfold activeWithEmail, activeWithId, identityOf, emailUsed, aadhaarUsed;
    cbn; intros *; rewrite ?lookup_empty; cbn;
    try discriminate; intros [? _]; discriminate.
Qed.

Lemma not_marked_no_active_email s e :
  consistent s -> emailUsed s e = false -> forall a, ~ activeWithEmail s a e.
Proof.
  intros C Hu a [Ha He]. pose proof (active_email_marked s C a Ha) as Hm.
  rewrite He in Hm. congruence.
Qed.

Lemma not_marked_no_active_id s h :
  consistent s -> aadhaarUsed s h = false -> forall a, ~ activeWithId s a h.
Proof.
  intros C Hu a [Ha He]. pose proof (active_id_marked s C a Ha) as Hm.
  rewrite He in Hm. congruence.
Qed.

Lemma consistent_registered env n e h s :
  consistent s ->
  isActive (identityOf s (msg_sender env)) = false ->
  emailUsed s e = false -> aadhaarUsed s h = false ->
  consistent (registered env n e h s).
Proof.
  intros C Hin He Hh.
  pose proof (not_marked_no_active_email s e C He) as NoE.
  pose proof (not_marked_no_active_id s h C Hh) as NoH.
  split; unfold activeWithEmail, activeWithId.
  - intros a. rewrite identityOf_registered, emailUsed_registered.
    destruct (decide (msg_sender env = a)); cbn.
    + destruct (decide (e = e)); congruence.
    + intros Ha. destruct (decide _); [done|]. by apply (active_email_marked s C).
  - intros a. rewrite identityOf_registered, aadhaarUsed_registered.
    destruct (decide (msg_sender env = a)); cbn.
    + destruct (decide (h = h)); congruence.
    + intros Ha. destruct (decide _); [done|]. by apply (active_id_marked s C).
  - intros x. rewrite emailUsed_registered.
    destruct (decide (e = x)) as [->|Hne].
    + intros _. exists (msg_sender env). rewrite identityOf_registered.
      destruct (decide _); [done | congruence].
    + intros Hx. destruct (marked_email_active s C x Hx) as (a & Ha & Hea).
      exists a. rewrite identityOf_registered.
      destruct (decide (msg_sender env = a)) as [<-|]; [congruence | done].
  - intros x. rewrite aadhaarUsed_registered.
    destruct (decide (h = x)) as [->|Hne].
    + intros _. exists (msg_sender env). rewrite identityOf_registered.
      destruct (decide _); [done | congruence].
    + intros Hx. destruct (marked_id_active s C x Hx) as (a & Ha & Hea).
      exists a. rewrite identityOf_registered.
      destruct (decide (msg_sender env = a)) as [<-|]; [congruence | done].
  - intros a b x. rewrite !identityOf_registered.
    destruct (decide (msg_sender env = a)) as [<-|Ha],
             (decide (msg_sender env = b)) as [<-|Hb]; cbn; try done.
    + intros [_ <-] Hb'. destruct (NoE b Hb').
    + intros Ha' [_ <-]. destruct (NoE a Ha').
    + apply (email_unique s C).
  - intros a b x. rewrite !identityOf_registered.
    destruct (decide (msg_sender env = a)) as [<-|Ha],
             (decide (msg_sender env = b)) as [<-|Hb]; cbn; try done.
    + intros [_ <-] Hb'. destruct (NoH b Hb').
    + intros Ha' [_ <-]. destruct (NoH a Ha').
    + apply (id_unique s C).
Qed.

Lemma reachable_consistent s : reachable s -> consistent s.
Proof.
  induction 1 as [|s env n e h s' _ IH Hreg].
  - exact consistent_empty.
  - apply registerIdentity_Ok in Hreg as (_ & _ & _ & Hin & He & Hh & ->).
    by apply consistent_registered.
Qed.

Lemma extends_reachable s s' : reachable s -> extends s s' -> reachable s'.
Proof. induction 2; [done | by eapply reachable_register]. Qed.

(** A registration by anyone leaves an active record as it is. *)
Lemma extends_keeps_active s s' a :
  extends s s' -> isActive (identityOf s a) = true ->
  identityOf s' a = identityOf s a.
Proof.
  induction 1 as [|s1 env n e h s2 _ IH Hreg]; [done|].
  intros Ha. specialize (IH Ha).
  apply registerIdentity_Ok in Hreg as (_ & _ & _ & Hin & _ & _ & ->).
  rewrite identityOf_registered.
  destruct (decide (msg_sender env = a)) as [<-|]; [|done].
  rewrite IH in Hin. congruence.
Qed.

(** Every sequence of registration attempts, failed ones included, ends
    in a reachable storage. *)
Lemma attempts_reachable calls s : reachable s -> reachable (attempts calls s).
Proof.
  revert s. induction calls as [|c calls IH]; intros s R; [done|].
  cbn. apply IH. unfold attempt.
  destruct (registerIdentity _ _ _ _ s) as [s'|] eqn:E; [|done].
  by eapply reachable_register.
Qed.

Lemma sampleStorage_reachable : reachable sampleStorage.
Proof.
  apply (reachable_register emptyStorage sampleEnv "Asha" "a@x.com" "H1").
  - exact reachable_deploy.
  - apply registerIdentity_Ok. repeat split; done.
Qed.

(** C1. Across any sequence of registration attempts, no two active
    records hold the same e-mail and no two hold the same id hash; a
    registration that then succeeds found its e-mail and id hash unmarked
    (so held by no active record) and leaves them marked, with uniqueness
    holding again. *)
Theorem registry_uniqueness (calls : list Call) :
  (forall a b e, activeWithEmail (ledgerAfter calls) a e ->
                 activeWithEmail (ledgerAfter calls) b e -> a = b)
  /\ (forall a b h, activeWithId (ledgerAfter calls) a h ->
                    activeWithId (ledgerAfter calls) b h -> a = b)
  /\ (forall env n e h s',
        registerIdentity env n e h (ledgerAfter calls) = Ok s' ->
        emailUsed (ledgerAfter calls) e = false
        /\ aadhaarUsed (ledgerAfter calls) h = false
        /\ (forall a, ~ activeWithEmail (ledgerAfter calls) a e)
        /\ (forall a, ~ activeWithId (ledgerAfter calls) a h)
        /\ emailUsed s' e = true /\ aadhaarUsed s' h = true
        /\ (forall a b x, activeWithEmail s' a x -> activeWithEmail s' b x -> a = b)
        /\ (forall a b x, activeWithId s' a x -> activeWithId s' b x -> a = b)).
Proof.
  assert (R : reachable (ledgerAfter calls))
    by (apply attempts_reachable, reachable_deploy).
  generalize dependent (ledgerAfter calls). intros s R.
  pose proof (reachable_consistent s R) as C.
  split; [apply (email_unique s C)|]. split; [apply (id_unique s C)|].
  intros env n e h s' Hreg.
  assert (C' : consistent s')
    by (apply reachable_consistent; by eapply reachable_register).
  apply registerIdentity_Ok in Hreg as (_ & _ & _ & Hin & He & Hh & ->).
  repeat split; try done.
  - by apply not_marked_no_active_email.
  - by apply not_marked_no_active_id.
  - rewrite emailUsed_registered. by destruct (decide (e = e)).
  - rewrite aadhaarUsed_registered. by destruct (decide (h = h)).
  - apply (email_unique _ C').
  - apply (id_unique _ C').
Qed.

Lemma registry_uniqueness_witness :
  (forall a b e, activeWithEmail (ledgerAfter sampleCalls) a e ->
                 activeWithEmail (ledgerAfter sampleCalls) b e -> a = b)
  /\ (forall a b h, activeWithId (ledgerAfter sampleCalls) a h ->
                    activeWithId (ledgerAfter sampleCalls) b h -> a = b).
Proof.
  destruct (registry_uniqueness sampleCalls) as (He & Hh & _). exact (conj He Hh).
Defined.

(** The sample calls: the second repeats the e-mail of the first and the
    third its id hash; only the first and the last register. *)
Example sampleCalls_registered :
  getAllUsers (ledgerAfter sampleCalls) = [10%N; 13%N].
Proof. reflexivity. Qed.

(** C4. [registerIdentity] reverts with an empty-field message when the
    name, e-mail or id hash is empty; otherwise with "Identity already
    registered" when the caller has an active record; otherwise with
    "Email already registered" when an active record holds the e-mail;
    otherwise with "Aadhaar already registered" when an active record
    holds the id hash; and otherwise it succeeds, stores the record and
    appends one [IdentityRegistered] event with the caller, name, e-mail
    and block time. Whenever one of the preconditions is violated the
    call reverts with one of these messages. *)
Theorem registerIdentity_outcomes (s : Storage) (env : Env) (n e h : string) :
  reachable s ->
  (n = "" \/ e = "" \/ h = "" ->
     exists r, registerIdentity env n e h s = Revert r /\ InvalidInput r)
  /\ (n <> "" -> e <> "" -> h <> "" ->
      isActive (identityOf s (msg_sender env)) = true ->
      registerIdentity env n e h s = Revert AlreadyRegistered)
  /\ (n <> "" -> e <> "" -> h <> "" ->
      isActive (identityOf s (msg_sender env)) = false ->
      (exists a, activeWithEmail s a e) ->
      registerIdentity env n e h s = Revert EmailTaken)
  /\ (n <> "" -> e <> "" -> h <> "" ->
      isActive (identityOf s (msg_sender env)) = false ->
      (forall a, ~ activeWithEmail s a e) ->
      (exists a, activeWithId s a h) ->
      registerIdentity env n e h s = Revert IdAlreadyUsed)
  /\ (n <> "" -> e <> "" -> h <> "" ->
      isActive (identityOf s (msg_sender env)) = false ->
      (forall a, ~ activeWithEmail s a e) ->
      (forall a, ~ activeWithId s a h) ->
      exists s',
        registerIdentity env n e h s = Ok s'
        /\ identityOf s' (msg_sender env) =
             mkIdentity n e h (msg_sender env) (block_timestamp env) true
        /\ (forall a, a <> msg_sender env -> identityOf s' a = identityOf s a)
        /\ registeredUsers s' = (registeredUsers s ++ [msg_sender env])%list
        /\ events s' =
             (events s ++ [IdentityRegistered (msg_sender env) n e (block_timestamp env)])%list)
  /\ (n = "" \/ e = "" \/ h = ""
      \/ isActive (identityOf s (msg_sender env)) = true
      \/ (exists a, activeWithEmail s a e) \/ (exists a, activeWithId s a h) ->
      exists r, registerIdentity env n e h s = Revert r
        /\ (InvalidInput r \/ r = AlreadyRegistered \/ r = EmailTaken \/ r = IdAlreadyUsed)).
Proof.
  intros R. pose proof (reachable_consistent s R) as C.
  assert (HE : (exists a, activeWithEmail s a e) <-> emailUsed s e = true).
  { split; [intros (a & Ha & <-); by apply (active_email_marked s C)
           | apply (marked_email_active s C)]. }
  assert (HH : (exists a, activeWithId s a h) <-> aadhaarUsed s h = true).
  { split; [intros (a & Ha & <-); by apply (active_id_marked s C)
           | apply (marked_id_active s C)]. }
  assert (HE' : (forall a, ~ activeWithEmail s a e) -> emailUsed s e = false).
  { intros N. apply not_true_is_false. intros E.
    apply HE in E as [a Ha]. destruct (N a Ha). }
  assert (HH' : (forall a, ~ activeWithId s a h) -> aadhaarUsed s h = false).
  { intros N. apply not_true_is_false. intros E.
    apply HH in E as [a Ha]. destruct (N a Ha). }
  unfold registerIdentity, require, InvalidInput, AlreadyRegistered, EmailTaken,
    IdAlreadyUsed.
  repeat split.
  - rewrite <- !nonEmpty_false.
    destruct (nonEmpty n), (nonEmpty e), (nonEmpty h); cbn; intros [|[|]];
      try discriminate; eauto 6.
  - rewrite <- !nonEmpty_true. by intros -> -> -> ->.
  - rewrite <- !nonEmpty_true, HE. by intros -> -> -> -> ->.
  - rewrite <- !nonEmpty_true, HH. intros -> -> -> -> N ->.
    by rewrite (HE' N).
  - rewrite <- !nonEmpty_true. intros -> -> -> -> N1 N2.
    rewrite (HE' N1), (HH' N2). cbn. eexists. split; [reflexivity|].
    cbn. repeat split.
    + unfold identityOf; cbn. by rewrite lookup_insert_eq.
    + intros a Ha. unfold identityOf; cbn. by rewrite lookup_insert_ne.
  - rewrite HE, HH, <- !nonEmpty_false.
    destruct (nonEmpty n), (nonEmpty e), (nonEmpty h),
      (isActive (identityOf s (msg_sender env))), (emailUsed s e), (aadhaarUsed s h);
      cbn; intros [|[|[|[|[|]]]]]; try discriminate; eauto 8.
Qed.

Lemma registerIdentity_outcomes_witness :
  registerIdentity (mkEnv 11 1700000100) "Ben" "a@x.com" "H2" sampleStorage
  = Revert EmailTaken.
Proof.
  apply (registerIdentity_outcomes sampleStorage (mkEnv 11 1700000100) "Ben" "a@x.com" "H2"
           sampleStorage_reachable); try done.
  exists 10%N. split; reflexivity.
Defined.

(** C5. After a successful registration by a (non-zero) caller address,
    [getIdentity] of that address returns the registered name, e-mail and
    id hash with the active flag set, and [isRegistered] returns true;
    this stays so whatever registrations follow. *)
Theorem register_then_get (s s' s'' : Storage) (env : Env) (n e h : string) :
  msg_sender env <> 0%N ->
  registerIdentity env n e h s = Ok s' ->
  extends s' s'' ->
  getIdentity (msg_sender env) s'' =
    Ok (n, e, h, msg_sender env, block_timestamp env, true)
  /\ isRegistered (msg_sender env) s'' = Ok true.
Proof.
  intros Hnz Hreg Hext.
  apply registerIdentity_Ok in Hreg as (_ & _ & _ & _ & _ & _ & ->).
  assert (Hid : identityOf s'' (msg_sender env) =
                mkIdentity n e h (msg_sender env) (block_timestamp env) true).
  { rewrite (extends_keeps_active _ _ _ Hext); rewrite identityOf_registered;
      by destruct (decide _). }
  unfold getIdentity, isRegistered, validAddress, require.
  apply N.eqb_neq in Hnz. rewrite Hnz, Hid. done.
Qed.

Lemma register_then_get_witness :
  getIdentity 10%N sampleStorage = Ok ("Asha", "a@x.com", "H1", 10%N, 1700000000%N, true)
  /\ isRegistered 10%N sampleStorage = Ok true.
Proof.
  apply (register_then_get emptyStorage sampleStorage sampleStorage sampleEnv
           "Asha" "a@x.com" "H1").
  - discriminate.
  - apply registerIdentity_Ok. repeat split; done.
  - apply extends_refl.
Defined.

(** C8, as the contract has it. [isRegistered] carries the modifier
    [validAddress]: for the zero address it reverts with "Invalid
    address"; for every other address it returns whether the address has
    an active record. *)
Theorem isRegistered_total_on_nonzero (s : Storage) (a : address) :
  (a <> 0%N -> isRegistered a s = Ok (isActive (identityOf s a)))
  /\ (a = 0%N -> isRegistered a s = Revert "Invalid address").
Proof.
  unfold isRegistered, validAddress, require. split.
  - intros Ha. apply N.eqb_neq in Ha. by rewrite Ha.
  - by intros ->.
Qed.

Lemma isRegistered_total_on_nonzero_witness :
  isRegistered 10%N sampleStorage = Ok (isActive (identityOf sampleStorage 10%N)).
Proof.
  apply (isRegistered_total_on_nonzero sampleStorage 10%N). discriminate.
Defined.

(** C8, as the specification states it, fails at the zero address: the
    call does not return a boolean there. *)
Lemma isRegistered_zero_address_reverts :
  isRegistered 0%N emptyStorage = Revert "Invalid address"
  /\ ~ (exists b : bool, isRegistered 0%N emptyStorage = Ok b)
  /\ ~ (forall s a, exists b : bool, isRegistered a s = Ok b).
Proof.
  split; [reflexivity|]. split.
  - intros [b Hb]. discriminate Hb.
  - intros H. destruct (H emptyStorage 0%N) as [b Hb]. discriminate Hb.
Qed.

End Registry.

(* ===================================================================== *)
(** * Properties of the base64url conversions                             *)
(* ===================================================================== *)

Module Base64.
Import Buffer.

Lemma below_64 (P : N -> bool) :
  forallb P (map N.of_nat (seq 0 64)) = true ->
  forall n, (n < 64)%N -> P n = true.
Proof.
  intros H n Hn. rewrite forallb_forall in H. apply H.
  apply in_map_iff. exists (N.to_nat n). split; [lia|].
  apply in_seq. lia.
Qed.

Lemma b64_char_index n : (n < 64)%N -> b64_index (b64_char n) = Some n.
Proof.
  intros Hn.
  apply (below_64 (fun n => bool_decide (b64_index (b64_char n) = Some n))) in Hn;
    [by apply bool_decide_eq_true in Hn | by vm_compute].
Qed.

Lemma b64_char_not_pad n : (n < 64)%N -> Ascii.eqb (b64_char n) "=" = false.
Proof.
  intros Hn.
  apply (below_64 (fun n => negb (Ascii.eqb (b64_char n) "="))) in Hn;
    [by apply negb_true_iff in Hn | by vm_compute].
Qed.

Lemma urlSafe_not_pad n : (n < 64)%N -> Ascii.eqb (urlSafe (b64_char n)) "=" = false.
Proof.
  intros Hn.
  apply (below_64 (fun n => negb (Ascii.eqb (urlSafe (b64_char n)) "="))) in Hn;
    [by apply negb_true_iff in Hn | by vm_compute].
Qed.

Lemma urlUnsafe_urlSafe n : (n < 64)%N -> urlUnsafe (urlSafe (b64_char n)) = b64_char n.
Proof.
  intros Hn.
  apply (below_64 (fun n => Ascii.eqb (urlUnsafe (urlSafe (b64_char n))) (b64_char n)))
    in Hn; [by apply Ascii.eqb_eq in Hn | by vm_compute].
Qed.

(** The string functions, character by character. *)
Lemma replace_all_chars c d l :
  JS.replace_all c d (chars l) = chars (map (fun x => if Ascii.eqb x c then d else x) l).
Proof. induction l as [|x l IH]; cbn; [done | by rewrite IH]. Qed.

Lemma replace_all_app c d s t :
  JS.replace_all c d (s ++ t) = JS.replace_all c d s ++ JS.replace_all c d t.
Proof.
  induction s as [|x s IH]; [done|].
  change (String x s ++ t) with (String x (s ++ t)). cbn [JS.replace_all].
  by rewrite IH.
Qed.

Lemma replace_all_repeat c d x k :
  Ascii.eqb x c = false -> JS.replace_all c d (JS.repeat x k) = JS.repeat x k.
Proof. intros Hx. induction k as [|k IH]; cbn; [done | by rewrite Hx, IH]. Qed.

Lemma remove_all_repeat c k : JS.remove_all c (JS.repeat c k) = "".
Proof. induction k as [|k IH]; cbn; [done | by rewrite Ascii.eqb_refl]. Qed.

Lemma remove_all_chars_app c l t :
  Forall (fun x => Ascii.eqb x c = false) l ->
  JS.remove_all c (chars l ++ t) = chars l ++ JS.remove_all c t.
Proof.
  induction 1 as [|x l Hx _ IH]; [done|].
  change (chars (x :: l) ++ t) with (String x (chars l ++ t)).
  cbn [JS.remove_all]. by rewrite Hx, IH.
Qed.

Lemma string_app_empty (s : string) : s ++ "" = s.
Proof.
  induction s as [|x s IH]; [done|].
  change (String x s ++ "") with (String x (s ++ "")). by rewrite IH.
Qed.

Lemma to_sextets_below (b : Buffer.t) : Forall (fun n => (n < 64)%N) (to_sextets b).
Proof.
  revert b.
  assert (H : forall b : Buffer.t,
             Forall (fun n => (n < 64)%N) (to_sextets b)
             /\ (forall x, Forall (fun n => (n < 64)%N) (to_sextets (x :: b)))
             /\ (forall x y, Forall (fun n => (n < 64)%N) (to_sextets (x :: y :: b)))).
  { induction b as [|z b (IH0 & IH1 & IH2)].
    - repeat split; intros; cbn; repeat constructor;
        try pose proof (Byte.to_N_bounded x); try pose proof (Byte.to_N_bounded y);
        zify; Z.to_euclidean_division_equations; lia.
    - split; [apply IH1|]. split; [intros; apply IH2|].
      intros x y. cbn. pose proof (Byte.to_N_bounded x). pose proof (Byte.to_N_bounded y).
      pose proof (Byte.to_N_bounded z).
      repeat (constructor; [zify; Z.to_euclidean_division_equations; lia|]).
      exact IH0. }
  intros b. apply H.
Qed.

Lemma byte_of_to_N (x : byte) (n : N) : n = Byte.to_N x -> byte_of_N n = x.
Proof.
  intros ->. unfold byte_of_N. pose proof (Byte.to_N_bounded x).
  rewrite N.mod_small by lia. by rewrite Byte.of_to_N.
Qed.

(** Regrouping bytes into sextets loses nothing. *)
Lemma of_to_sextets (b : Buffer.t) : of_sextets (to_sextets b) = b.
Proof.
  revert b.
  assert (H : forall b : Buffer.t,
             of_sextets (to_sextets b) = b
             /\ (forall x, of_sextets (to_sextets (x :: b)) = x :: b)
             /\ (forall x y, of_sextets (to_sextets (x :: y :: b)) = x :: y :: b)).
  { induction b as [|z b (IH0 & IH1 & IH2)].
    - repeat split; intros; cbn; repeat f_equal; apply byte_of_to_N;
        try pose proof (Byte.to_N_bounded x); try pose proof (Byte.to_N_bounded y);
        zify; Z.to_euclidean_division_equations; lia.
    - split; [apply IH1|]. split; [intros; apply IH2|].
      intros x y. cbn. rewrite IH0.
      pose proof (Byte.to_N_bounded x). pose proof (Byte.to_N_bounded y).
      pose proof (Byte.to_N_bounded z).
      repeat f_equal; apply byte_of_to_N; zify; Z.to_euclidean_division_equations; lia. }
  intros b. apply H.
Qed.

(** The decoder reads back the sextets of an encoded text, whatever
    padding follows it. *)
Lemma read_sextets_chars (l : list N) (k : nat) :
  Forall (fun n => (n < 64)%N) l ->
  read_sextets (chars (map b64_char l) ++ JS.repeat "=" k) = l.
Proof.
  induction 1 as [|n l Hn _ IH].
  - by destruct k.
  - change (chars (map b64_char (n :: l)) ++ JS.repeat "=" k)
      with (String (b64_char n) (chars (map b64_char l) ++ JS.repeat "=" k)).
    cbn [read_sextets].
    by rewrite (b64_char_not_pad n Hn), (b64_char_index n Hn), IH.
Qed.

(** [bufferToBase64URL] gives the URL-safe characters of the sextets and
    no padding. *)
Lemma bufferToBase64URL_chars (b : Buffer.t) :
  WebAuthnUtils.bufferToBase64URL b = chars (map urlSafe (map b64_char (to_sextets b))).
Proof.
  unfold WebAuthnUtils.bufferToBase64URL, toString_base64.
  rewrite !replace_all_app, !replace_all_chars, !replace_all_repeat by done.
  rewrite !map_map, remove_all_chars_app, remove_all_repeat, string_app_empty.
  - reflexivity.
  - apply Forall_map. eapply Forall_impl; [apply to_sextets_below|].
    intros n Hn. exact (urlSafe_not_pad n Hn).
Qed.

Lemma urlUnsafe_chars (l : list N) :
  Forall (fun n => (n < 64)%N) l ->
  JS.replace_all "_" "/" (JS.replace_all "-" "+" (chars (map urlSafe (map b64_char l))))
  = chars (map b64_char l).
Proof.
  intros H. rewrite !replace_all_chars, !map_map. f_equal.
  induction H as [|n l Hn _ IH]; cbn; [done|].
  rewrite IH. f_equal. exact (urlUnsafe_urlSafe n Hn).
Qed.

Example bufferToBase64URL_Man :
  WebAuthnUtils.bufferToBase64URL [x4d; x61; x6e] = "TWFu"
  /\ WebAuthnUtils.bufferToBase64URL [x4d; x61] = "TWE"
  /\ WebAuthnUtils.bufferToBase64URL [xfb; xff; xfe] = "-__-"
  /\ toString_base64 [xfb; xff] = "+/8="
  /\ WebAuthnUtils.base64URLToBuffer "-_8" = [xfb; xff].
Proof. repeat split. Qed.

(** C10. Decoding what [bufferToBase64URL] produced gives the buffer
    back: [base64URLToBuffer (bufferToBase64URL b) = b] for every byte
    buffer [b]. *)
Theorem base64URL_roundtrip (b : Buffer.t) :
  WebAuthnUtils.base64URLToBuffer (WebAuthnUtils.bufferToBase64URL b) = b.
Proof.
  unfold WebAuthnUtils.base64URLToBuffer, from_base64.
  rewrite bufferToBase64URL_chars, urlUnsafe_chars by apply to_sextets_below.
  rewrite read_sextets_chars by apply to_sextets_below.
  apply of_to_sextets.
Qed.

End Base64.

(* ===================================================================== *)
(** * Properties of the ceremonies                                        *)
(* ===================================================================== *)

Module Ceremony.
Import AuthRoutes.

Section WithRuntime.

Variable webauthn : WebAuthnUtils.t.
Variable JSON_parse : Buffer.t -> option JS.value.
Variable JWT_SECRET : string.
Variable jwt_sign : TokenPayload -> string -> SignOptions -> string.

Local Abbreviation register_begin := (register_begin webauthn).
Local Abbreviation register_complete := (register_complete webauthn JSON_parse).
Local Abbreviation login_complete :=
  (login_complete webauthn JSON_parse JWT_SECRET jwt_sign).
Local Abbreviation run := (run webauthn JSON_parse JWT_SECRET jwt_sign).
Local Abbreviation runAll := (runAll webauthn JSON_parse JWT_SECRET jwt_sign).

Lemma wellFormed_passes c k :
  wellFormed c k -> negb (JS.truthy c) || missing k = false.
Proof.
  intros [-> Hk]. cbn. unfold missing. by apply String.eqb_neq.
Qed.

(** A [complete] request that finds its challenge removes it, whatever
    it answers. *)
Lemma register_complete_consumes c k now t s d :
  wellFormed c k -> challenges s !! k = Some d ->
  challenges (register_complete c k now t s).2 = delete k (challenges s).
Proof.
  intros W Hd. unfold AuthRoutes.register_complete.
  rewrite (wellFormed_passes c k W), Hd. by repeat case_match.
Qed.

Lemma login_complete_consumes c k now t s d :
  wellFormed c k -> challenges s !! k = Some d ->
  challenges (login_complete c k now t s).2 = delete k (challenges s).
Proof.
  intros W Hd. unfold AuthRoutes.login_complete.
  rewrite (wellFormed_passes c k W), Hd. by repeat case_match.
Qed.

(** A [complete] request whose key is not in the map answers [NotFound]
    and changes nothing. *)
Lemma register_complete_absent c k now t s :
  wellFormed c k -> challenges s !! k = None ->
  register_complete c k now t s = (NotFound, s).
Proof.
  intros W Hd. unfold AuthRoutes.register_complete.
  by rewrite (wellFormed_passes c k W), Hd.
Qed.

Lemma login_complete_absent c k now t s :
  wellFormed c k -> challenges s !! k = None ->
  login_complete c k now t s = (NotFound, s).
Proof.
  intros W Hd. unfold AuthRoutes.login_complete.
  by rewrite (wellFormed_passes c k W), Hd.
Qed.

(** Nothing but a [begin] request that mints the key [k] puts [k] into
    the map. *)
Lemma run_keeps_absent a s k :
  mintedKey a <> Some k -> challenges s !! k = None ->
  challenges (run a s).2 !! k = None.
Proof.
  intros Hm Hk. destruct a; cbn in Hm |- *.
  - unfold register_begin. repeat case_match; simplify_eq; cbn; try done.
    rewrite lookup_insert_ne; [done | congruence].
  - unfold AuthRoutes.register_complete.
    repeat case_match; simplify_eq; cbn; try done;
      by apply lookup_delete_None; right.
  - unfold login_begin. repeat case_match; simplify_eq; cbn; try done.
    rewrite lookup_insert_ne; [done | congruence].
  - unfold AuthRoutes.login_complete.
    repeat case_match; simplify_eq; cbn; try done;
      by apply lookup_delete_None; right.
  - apply map_lookup_filter_None. by left.
Qed.

Lemma runAll_keeps_absent l s k :
  Forall (fun a => mintedKey a <> Some k) l -> challenges s !! k = None ->
  challenges (runAll l s) !! k = None.
Proof.
  intros H. revert s. induction H as [|a l Ha _ IH]; intros s Hk; [done|].
  cbn. apply IH. by apply run_keeps_absent.
Qed.

(** C2. A pending challenge is single-use. When a [complete] request
    (of either ceremony) finds the challenge stored under its key, the
    entry is gone afterwards, whatever the request answered; it stays
    gone through every later request that does not mint that same key
    anew; and a later [complete] request with that key answers "Invalid
    or expired challenge" and never succeeds. *)
Theorem challenge_single_use (a : Action) (c : JS.value) (k : string) (t t' : Z)
    (s : State) (d : ChallengeData) :
  a = RegisterComplete c k t t' \/ a = LoginComplete c k t t' ->
  wellFormed c k ->
  challenges s !! k = Some d ->
  challenges (run a s).2 !! k = None
  /\ forall later : list Action,
       Forall (fun b => mintedKey b <> Some k) later ->
       let s' := runAll later (run a s).2 in
       challenges s' !! k = None
       /\ forall c2 u u',
            wellFormed c2 k ->
            register_complete c2 k u u' s' = (NotFound, s')
            /\ login_complete c2 k u u' s' = (NotFound, s')
            /\ ~ succeeded (register_complete c2 k u u' s').1
            /\ ~ succeeded (login_complete c2 k u u' s').1.
Proof.
  intros Ha W Hd.
  assert (Hgone : challenges (run a s).2 !! k = None).
  { destruct Ha as [-> | ->]; cbn.
    - pose proof (register_complete_consumes c k t t' s d W Hd) as E.
      destruct (register_complete c k t t' s) as [r s1]; cbn in *.
      rewrite E. apply lookup_delete_eq.
    - pose proof (login_complete_consumes c k t t' s d W Hd) as E.
      destruct (login_complete c k t t' s) as [r s1]; cbn in *.
      rewrite E. apply lookup_delete_eq. }
  split; [exact Hgone|].
  intros later Hl s'.
  assert (Hs' : challenges s' !! k = None) by by apply runAll_keeps_absent.
  split; [exact Hs'|].
  intros c2 u u' W2.
  rewrite (register_complete_absent c2 k u u' s' W2 Hs').
  rewrite (login_complete_absent c2 k u u' s' W2 Hs').
  repeat split; cbn; unfold succeeded; cbn; lia.
Qed.

(** C6. A [complete] request (of either ceremony) that finds a challenge
    whose expiry has passed answers "Challenge expired", whatever its
    credential is, and deletes the entry; nothing else changes. *)
Theorem expired_challenge_rejected (c : JS.value) (k : string) (now t : Z)
    (s : State) (d : ChallengeData) :
  wellFormed c k ->
  challenges s !! k = Some d ->
  (now > expires d)%Z ->
  register_complete c k now t s = (Expired, consume k s)
  /\ login_complete c k now t s = (Expired, consume k s)
  /\ challenges (consume k s) !! k = None.
Proof.
  intros W Hd Hex.
  unfold AuthRoutes.register_complete, AuthRoutes.login_complete.
  rewrite (wellFormed_passes c k W), Hd.
  assert ((now >? expires d)%Z = true) as -> by lia.
  repeat split. cbn. apply lookup_delete_eq.
Qed.

(** The sweep removes exactly the entries whose expiry has passed. *)
Lemma cleanup_removes_expired now s k :
  challenges (cleanupExpiredChallenges now s) !! k =
  match challenges s !! k with
  | Some d => if (now >? expires d)%Z then None else Some d
  | None => None
  end.
Proof.
  cbn. destruct (challenges s !! k) as [d|] eqn:E.
  - destruct (now >? expires d)%Z eqn:G.
    + apply map_lookup_filter_None. right. intros d' Hd'. cbn. simplify_eq. lia.
    + apply map_lookup_filter_Some. split; [done|]. cbn. lia.
  - apply map_lookup_filter_None. by left.
Qed.

(** What a successful [/login/complete] has read and written. *)
Lemma login_complete_success c k now t s r s' :
  login_complete c k now t s = (r, s') -> succeeded r ->
  exists d old,
    challenges s !! k = Some d
    /\ localStorage s !! storageKey (email d) = Some old
    /\ s' = {| challenges := delete k (challenges s);
               localStorage := <[storageKey (email d) := bumped old]> (localStorage s) |}.
Proof.
  unfold AuthRoutes.login_complete, succeeded, WebAuthnUtils.verifyAuthenticationCredential.
  intros H Hr.
  repeat case_match; simplify_eq; cbn in *; try discriminate.
  eexists _, _. repeat split; try done.
  match goal with
  | H : context [JS.Normal (WebAuthnUtils.AuthVerified _)] |- _ =>
      unfold JS.bind in H; repeat case_match; simplify_eq
  end.
  reflexivity.
Qed.

(** A [/login/complete] that does not succeed leaves the stored
    credentials as they were. *)
Lemma login_complete_failure c k now t s r s' :
  login_complete c k now t s = (r, s') -> ~ succeeded r ->
  localStorage s' = localStorage s.
Proof.
  unfold AuthRoutes.login_complete, succeeded. intros H Hr.
  repeat case_match; simplify_eq; cbn in *; try done.
Qed.

(** C3. A successful [/login/complete] stores, for the e-mail of its
    challenge, the old stored credential with its counter plus one: a
    value fixed by the stored record alone, the same for any two
    credential responses that succeed. No [/login/complete], successful
    or not, lowers a stored counter. *)
Theorem login_increments_counter (c : JS.value) (k : string) (now t : Z)
    (s s' : State) (r : Response) :
  login_complete c k now t s = (r, s') ->
  (succeeded r ->
     exists d old new,
       challenges s !! k = Some d
       /\ localStorage s !! storageKey (email d) = Some old
       /\ localStorage s' !! storageKey (email d) = Some new
       /\ counter new = (counter old + 1)%Z
       /\ new = bumped old
       /\ (forall c2 now2 t2 r2 s2,
             login_complete c2 k now2 t2 s = (r2, s2) -> succeeded r2 ->
             localStorage s2 = localStorage s'))
  /\ (forall key old,
        localStorage s !! key = Some old ->
        exists new, localStorage s' !! key = Some new
                    /\ (counter old <= counter new)%Z).
Proof.
  intros H. split.
  - intros Hr.
    destruct (login_complete_success c k now t s r s' H Hr) as (d & old & Hd & Ho & ->).
    exists d, old, (bumped old). cbn. rewrite lookup_insert_eq.
    repeat split; try done.
    intros c2 now2 t2 r2 s2 H2 Hr2.
    destruct (login_complete_success c2 k now2 t2 s r2 s2 H2 Hr2)
      as (d2 & old2 & Hd2 & Ho2 & ->).
    cbn. by simplify_eq.
  - intros key old Hold.
    destruct (decide (status r = 200)) as [Hr|Hr].
    + destruct (login_complete_success c k now t s r s' H Hr) as (d & o & Hd & Ho & ->).
      cbn. destruct (decide (storageKey (email d) = key)) as [<-|Hne].
      * rewrite lookup_insert_eq. eexists; split; [done|]. simplify_eq. cbn. lia.
      * rewrite lookup_insert_ne by done. eexists; split; [done | lia].
    + rewrite (login_complete_failure c k now t s r s' H Hr).
      eexists; split; [done | lia].
Qed.

(** C9, on the code. The key of a challenge is built from the e-mail and
    the millisecond clock. Two [/register/begin] requests for one e-mail
    served within one millisecond get the same key, and the second
    replaces the pending challenge of the first. *)
Theorem begin_same_millisecond_same_key (email name : string)
    (u1 r1 u2 r2 : Buffer.t) (now e1 e2 : Z) (s : State) :
  email <> "" -> name <> "" -> emailRegex_test email = true ->
  localStorage s !! storageKey email = None ->
  let k := "challenge_" ++ email ++ "_" ++ pretty now in
  let first := register_begin email name u1 r1 now e1 s in
  let second := register_begin email name u2 r2 now e2 first.2 in
  (exists o, first.1 = ok (RegistrationOptionsSent o k))
  /\ (exists o, second.1 = ok (RegistrationOptionsSent o k))
  /\ challenges first.2 !! k =
       Some {| challenge := Buffer.toString_base64url r1; email := email;
               name := Some name; expires := e1 + 5 * 60 * 1000 |}
  /\ challenges second.2 =
       <[k := {| challenge := Buffer.toString_base64url r2; email := email;
                 name := Some name; expires := e2 + 5 * 60 * 1000 |}]> (challenges s).
Proof.
  intros He Hn Hre Hls k first second. subst first second k.
  unfold AuthRoutes.register_begin, missing.
  apply String.eqb_neq in He, Hn. rewrite He, Hn, Hre, Hls. cbn.
  rewrite Hls. cbn. rewrite lookup_insert_eq, insert_insert_eq.
  repeat split; eauto.
Qed.

End WithRuntime.

Lemma sample_wellFormed : wellFormed sampleCredential sampleKey.
Proof. split; [reflexivity | discriminate]. Qed.

Lemma challenge_single_use_witness :
  challenges
    (run WebAuthnUtils.defaults sampleParse "secret" sampleSign
       (LoginComplete sampleCredential sampleKey 1700000000500 1700000000501)
       sampleState).2 !! sampleKey = None.
Proof.
  apply (challenge_single_use WebAuthnUtils.defaults sampleParse "secret" sampleSign
           (LoginComplete sampleCredential sampleKey 1700000000500 1700000000501)
           sampleCredential sampleKey 1700000000500 1700000000501 sampleState
           {| challenge := sampleChallenge; email := "a@x.com"; name := None;
              expires := 1700000300000 |}).
  - by right.
  - exact sample_wellFormed.
  - reflexivity.
Defined.

Lemma expired_challenge_rejected_witness :
  login_complete WebAuthnUtils.defaults sampleParse "secret" sampleSign
    sampleCredential sampleKey 1700000300001 1700000300002 sampleState
  = (Expired, consume sampleKey sampleState).
Proof.
  apply (expired_challenge_rejected WebAuthnUtils.defaults sampleParse "secret" sampleSign
           sampleCredential sampleKey 1700000300001 1700000300002 sampleState
           {| challenge := sampleChallenge; email := "a@x.com"; name := None;
              expires := 1700000300000 |}).
  - exact sample_wellFormed.
  - reflexivity.
  - reflexivity.
Defined.

Example emailRegex_samples :
  map emailRegex_test ["a@x.com"; "a@x"; "@x.com"; "a@.com"; "a b@x.com"; "a@b@x.com"]
  = [true; false; false; false; false; false].
Proof. reflexivity. Qed.

(** A response whose origin is not the configured one is refused with
    "Origin mismatch", and its challenge is consumed all the same. *)
Example foreign_origin_refused :
  let '(r, s) :=
    login_complete WebAuthnUtils.defaults foreignParse "secret" sampleSign
      sampleCredential sampleKey 1700000000500 1700000000501 sampleState in
  r = {| status := 401; body := Error (JS.Message "Origin mismatch") |}
  /\ challenges s !! sampleKey = None
  /\ localStorage s = localStorage sampleState.
Proof. repeat split. Qed.

Lemma sample_login_succeeds :
  succeeded
    (login_complete WebAuthnUtils.defaults sampleParse "secret" sampleSign
       sampleCredential sampleKey 1700000000500 1700000000501 sampleState).1.
Proof. reflexivity. Qed.

Lemma login_increments_counter_witness :
  exists d old new,
    challenges sampleState !! sampleKey = Some d
    /\ localStorage sampleState !! storageKey (email d) = Some old
    /\ localStorage
         (login_complete WebAuthnUtils.defaults sampleParse "secret" sampleSign
            sampleCredential sampleKey 1700000000500 1700000000501 sampleState).2
         !! storageKey (email d) = Some new
    /\ counter new = (counter old + 1)%Z
    /\ new = bumped old
    /\ (forall c2 now2 t2 r2 s2,
          login_complete WebAuthnUtils.defaults sampleParse "secret" sampleSign
            c2 sampleKey now2 t2 sampleState = (r2, s2) ->
          succeeded r2 ->
          localStorage s2 =
          localStorage
            (login_complete WebAuthnUtils.defaults sampleParse "secret" sampleSign
               sampleCredential sampleKey 1700000000500 1700000000501 sampleState).2).
Proof.
  apply (login_increments_counter WebAuthnUtils.defaults sampleParse "secret" sampleSign
           sampleCredential sampleKey 1700000000500 1700000000501 sampleState
           _ _ (surjective_pairing _)).
  exact sample_login_succeeds.
Defined.

Example sample_login_counter :
  counter <$>
    (localStorage
       (login_complete WebAuthnUtils.defaults sampleParse "secret" sampleSign
          sampleCredential sampleKey 1700000000500 1700000000501 sampleState).2
       !! storageKey "a@x.com") = Some 5%Z.
Proof. reflexivity. Qed.

Lemma begin_same_millisecond_same_key_witness :
  challenges
    (register_begin WebAuthnUtils.defaults "a@x.com" "Asha" [x02] [x22] 1700000000000
       1700000000000
       (register_begin WebAuthnUtils.defaults "a@x.com" "Asha" [x01] [x11] 1700000000000
          1700000000000 initial).2).2
  = <["challenge_a@x.com_1700000000000" :=
        {| challenge := "Ig"; email := "a@x.com"; name := Some "Asha";
           expires := 1700000300000 |}]> (challenges initial).
Proof.
  apply (begin_same_millisecond_same_key WebAuthnUtils.defaults "a@x.com" "Asha"
           [x01] [x11] [x02] [x22] 1700000000000 1700000000000 1700000000000 initial).
  - discriminate.
  - discriminate.
  - reflexivity.
  - reflexivity.
Defined.

End Ceremony.

(* ===================================================================== *)
(** * The views of the registry                                           *)
(* ===================================================================== *)

Module RegistryViews.
Import IdentityManager Registry.

(** The counting loop of [getTotalUsers], from any starting count. *)
Lemma count_loop (s : Storage) (l : list address) (acc : N) :
  fold_left (fun activeCount u =>
               if isActive (identityOf s u) then (activeCount + 1)%N else activeCount)
            l acc
  = (acc + N.of_nat (length (List.filter (fun u => isActive (identityOf s u)) l)))%N.
Proof.
  revert acc. induction l as [|u l IH]; intros acc; cbn; [lia|].
  rewrite IH. destruct (isActive (identityOf s u)); cbn; lia.
Qed.

(** X1. [getTotalUsers] counts exactly the addresses [getAllUsers]
    returns, in every storage. *)
Theorem getTotalUsers_counts_getAllUsers (s : Storage) :
  getTotalUsers s = N.of_nat (length (getAllUsers s)).
Proof. unfold getTotalUsers, getAllUsers. by rewrite count_loop. Qed.

Lemma listed_empty : listed emptyStorage.
Proof.
  split; cbn; try done.
  - intros a. unfold identityOf; cbn. rewrite lookup_empty; cbn.
    split; [intros H; inversion H | discriminate].
  - constructor.
Qed.

Lemma listed_registered env n e h s :
  n <> "" -> e <> "" -> h <> "" ->
  listed s -> isActive (identityOf s (msg_sender env)) = false ->
  listed (registered env n e h s).
Proof.
  intros Hn He Hh L Hin.
  assert (Hnew : msg_sender env ∉ registeredUsers s).
  { intros Hm. apply (listed_active s L) in Hm. congruence. }
  split.
  - intros a. cbn. rewrite elem_of_app, list_elem_of_singleton, identityOf_registered.
    destruct (decide (msg_sender env = a)) as [<-|Hne]; cbn.
    + split; auto.
    + rewrite (listed_active s L). split; [intros [|]; congruence | auto].
  - cbn. apply NoDup_app. split; [apply (listed_once s L)|]. split.
    + intros a Ha ->%list_elem_of_singleton. done.
    + apply NoDup_singleton.
  - intros a. rewrite identityOf_registered.
    destruct (decide (msg_sender env = a)) as [<-|Hne]; cbn; [done|].
    apply (listed_self s L).
  - intros a. rewrite identityOf_registered.
    destruct (decide (msg_sender env = a)) as [<-|Hne]; cbn; [done|].
    apply (listed_filled s L).
  - cbn. rewrite map_app. cbn. rewrite (listed_events s L). f_equal.
    + apply map_ext_in. intros a Ha%list_elem_of_In.
      rewrite identityOf_registered.
      destruct (decide (msg_sender env = a)) as [<-|Hne]; [done | done].
    + rewrite identityOf_registered. by destruct (decide _).
Qed.

Lemma reachable_listed s : reachable s -> listed s.
Proof.
  induction 1 as [|s env n e h s' _ IH Hreg]; [exact listed_empty|].
  apply registerIdentity_Ok in Hreg as (Hn & He & Hh & Hin & _ & _ & ->).
  by apply listed_registered.
Qed.

Lemma ledgerAfter_reachable calls : reachable (ledgerAfter calls).
Proof. apply attempts_reachable, reachable_deploy. Qed.

Lemma filter_all_true {A} (p : A -> bool) (l : list A) :
  (forall x, x ∈ l -> p x = true) -> List.filter p l = l.
Proof.
  induction l as [|x l IH]; intros H; cbn; [done|].
  rewrite (H x) by left. rewrite IH; [done|]. intros y Hy. apply H. by right.
Qed.

(** X2. After any sequence of registration attempts the array of
    registered users lists every address with an active record exactly
    once, so [getAllUsers] is that array and [getTotalUsers] its length. *)
Theorem enumeration_is_exact (calls : list Call) :
  NoDup (registeredUsers (ledgerAfter calls))
  /\ (forall a, a ∈ getAllUsers (ledgerAfter calls)
                <-> isActive (identityOf (ledgerAfter calls) a) = true)
  /\ getAllUsers (ledgerAfter calls) = registeredUsers (ledgerAfter calls)
  /\ getTotalUsers (ledgerAfter calls)
     = N.of_nat (length (registeredUsers (ledgerAfter calls)))
  /\ (length (registeredUsers (ledgerAfter calls)) <= length calls)%nat.
Proof.
  pose proof (reachable_listed _ (ledgerAfter_reachable calls)) as L.
  assert (E : getAllUsers (ledgerAfter calls) = registeredUsers (ledgerAfter calls)).
  { apply filter_all_true. intros a Ha. by apply (listed_active _ L). }
  split; [apply (listed_once _ L)|]. split; [|split; [exact E|split]].
  - intros a. rewrite E. apply (listed_active _ L).
  - unfold getTotalUsers. rewrite count_loop. fold (getAllUsers (ledgerAfter calls)).
    rewrite E. lia.
  - clear L E. unfold ledgerAfter.
    assert (G : forall l s, (length (registeredUsers (attempts l s))
                            <= length (registeredUsers s) + length l)%nat).
    { induction l as [|c l IH]; intros s; cbn; [lia|].
      etransitivity; [apply IH|]. unfold attempt.
      destruct (registerIdentity _ _ _ _ s) as [s'|] eqn:R; [|lia].
      apply registerIdentity_Ok in R as (_ & _ & _ & _ & _ & _ & ->).
      cbn. rewrite length_app. cbn. lia. }
    specialize (G calls emptyStorage). cbn in G. exact G.
Qed.

(** X3. The event log is the audit trail of the array: after any
    sequence of attempts it holds, in registration order, one
    [IdentityRegistered] event per registered address, with the name,
    e-mail and time now stored for that address. *)
Theorem events_mirror_registrations (calls : list Call) :
  events (ledgerAfter calls) =
  map (fun a =>
         IdentityRegistered a
           (name (identityOf (ledgerAfter calls) a))
           (email (identityOf (ledgerAfter calls) a))
           (registrationTime (identityOf (ledgerAfter calls) a)))
      (registeredUsers (ledgerAfter calls)).
Proof. apply listed_events, reachable_listed, ledgerAfter_reachable. Qed.

(** X4. [getIdentity] after any sequence of attempts: "Invalid address"
    for the zero address, "Identity not found or inactive" for any other
    address that never registered, and for a registered one the stored
    record, whose address field is the queried address, whose text fields
    are not empty and whose active flag is set. *)
Theorem getIdentity_outcomes (calls : list Call) (a : address) :
  (a = 0%N -> getIdentity a (ledgerAfter calls) = Revert "Invalid address")
  /\ (a <> 0%N -> a ∉ registeredUsers (ledgerAfter calls) ->
      getIdentity a (ledgerAfter calls) = Revert "Identity not found or inactive")
  /\ (a <> 0%N -> a ∈ registeredUsers (ledgerAfter calls) ->
      exists n e h t,
        getIdentity a (ledgerAfter calls) = Ok (n, e, h, a, t, true)
        /\ n <> "" /\ e <> "" /\ h <> ""
        /\ IdentityRegistered a n e t ∈ events (ledgerAfter calls)).
Proof.
  pose proof (reachable_listed _ (ledgerAfter_reachable calls)) as L.
  unfold getIdentity, validAddress, require. repeat split.
  - by intros ->.
  - intros Ha%N.eqb_neq Hn. rewrite Ha. cbn.
    destruct (isActive (identityOf (ledgerAfter calls) a)) eqn:E; [|done].
    apply (listed_active _ L) in E. done.
  - intros Ha%N.eqb_neq Hin. rewrite Ha. cbn.
    pose proof Hin as Hact. apply (listed_active _ L) in Hact. rewrite Hact.
    destruct (listed_filled _ L a Hact) as (Hn & He & Hh).
    eexists _, _, _, _. rewrite (listed_self _ L a Hact).
    split; [reflexivity|]. repeat split; try done.
    rewrite (listed_events _ L). apply list_elem_of_In.
    apply in_map_iff. exists a. split; [reflexivity | by apply list_elem_of_In].
Qed.

Lemma getIdentity_outcomes_witness :
  getIdentity 11%N (ledgerAfter sampleCalls) = Revert "Identity not found or inactive".
Proof.
  apply (getIdentity_outcomes sampleCalls 11%N); [discriminate|].
  change (11%N ∉ [10%N; 13%N]). intros H.
  repeat (apply elem_of_cons in H as [H|H]; [discriminate H|]).
  inversion H.
Defined.

Lemma extends_keeps_marks s s' :
  extends s s' ->
  (forall e, emailUsed s e = true -> emailUsed s' e = true)
  /\ (forall h, aadhaarUsed s h = true -> aadhaarUsed s' h = true).
Proof.
  induction 1 as [|s1 env n e h s2 _ [IHe IHh] Hreg]; [done|].
  apply registerIdentity_Ok in Hreg as (_ & _ & _ & _ & _ & _ & ->).
  split; intros x Hx.
  - rewrite emailUsed_registered. destruct (decide _); [done | by apply IHe].
  - rewrite aadhaarUsed_registered. destruct (decide _); [done | by apply IHh].
Qed.

(** X5. [isEmailRegistered] after any sequence of attempts is true
    exactly for the e-mails of the registered addresses, is false for the
    empty e-mail, and once true stays true through later registrations. *)
Theorem isEmailRegistered_exact (calls : list Call) (e : string) :
  (isEmailRegistered e (ledgerAfter calls) = true
   <-> exists a, a ∈ registeredUsers (ledgerAfter calls)
                 /\ email (identityOf (ledgerAfter calls) a) = e)
  /\ isEmailRegistered "" (ledgerAfter calls) = false
  /\ (forall s', extends (ledgerAfter calls) s' ->
                 isEmailRegistered e (ledgerAfter calls) = true ->
                 isEmailRegistered e s' = true).
Proof.
  pose proof (ledgerAfter_reachable calls) as R.
  pose proof (reachable_listed _ R) as L. pose proof (reachable_consistent _ R) as C.
  unfold isEmailRegistered. repeat split.
  - intros (a & Ha & Hea)%(marked_email_active _ C). exists a.
    split; [by apply (listed_active _ L) | done].
  - intros (a & Ha%(listed_active _ L) & <-). by apply (active_email_marked _ C).
  - apply not_true_is_false. intros (a & Ha & Hea)%(marked_email_active _ C).
    by destruct (listed_filled _ L a Ha) as (_ & He & _).
  - intros s' Hext. apply (extends_keeps_marks _ _ Hext).
Qed.

(** X6. A registration is final. After [registerIdentity] succeeded,
    and whatever registrations follow, every further call by the same
    sender reverts, and so does every call by anyone with the same
    e-mail or the same id hash. *)
Theorem registration_is_final (s s' s'' : Storage) (env : Env) (n e h : string) :
  registerIdentity env n e h s = Ok s' ->
  extends s' s'' ->
  (forall env' n' e' h',
      msg_sender env' = msg_sender env ->
      exists r, registerIdentity env' n' e' h' s'' = Revert r)
  /\ (forall env' n' h', exists r, registerIdentity env' n' e h' s'' = Revert r)
  /\ (forall env' n' e', exists r, registerIdentity env' n' e' h s'' = Revert r).
Proof.
  intros Hreg Hext.
  apply registerIdentity_Ok in Hreg as (_ & _ & _ & _ & _ & _ & ->).
  assert (Hact : isActive (identityOf s'' (msg_sender env)) = true).
  { rewrite (extends_keeps_active _ _ _ Hext); rewrite identityOf_registered;
      by destruct (decide _). }
  destruct (extends_keeps_marks _ _ Hext) as [Ke Kh].
  assert (He : emailUsed s'' e = true).
  { apply Ke. rewrite emailUsed_registered. by destruct (decide _). }
  assert (Hh : aadhaarUsed s'' h = true).
  { apply Kh. rewrite aadhaarUsed_registered. by destruct (decide _). }
  repeat split.
  - intros env' n' e' h' Hs.
    destruct (registerIdentity env' n' e' h' s'') as [t|r] eqn:E; [|by eexists].
    apply registerIdentity_Ok in E as (_ & _ & _ & Hin & _). rewrite Hs in Hin. congruence.
  - intros env' n' h'.
    destruct (registerIdentity env' n' e h' s'') as [t|r] eqn:E; [|by eexists].
    apply registerIdentity_Ok in E as (_ & _ & _ & _ & Hin & _). congruence.
  - intros env' n' e'.
    destruct (registerIdentity env' n' e' h s'') as [t|r] eqn:E; [|by eexists].
    apply registerIdentity_Ok in E as (_ & _ & _ & _ & _ & Hin & _). congruence.
Qed.

Lemma registration_is_final_witness :
  (forall env' n' e' h',
      msg_sender env' = msg_sender sampleEnv ->
      exists r, registerIdentity env' n' e' h' sampleStorage = Revert r)
  /\ (forall env' n' h', exists r, registerIdentity env' n' "a@x.com" h' sampleStorage = Revert r)
  /\ (forall env' n' e', exists r, registerIdentity env' n' e' "H1" sampleStorage = Revert r).
Proof.
  apply (registration_is_final emptyStorage sampleStorage sampleStorage sampleEnv
           "Asha" "a@x.com" "H1").
  - apply registerIdentity_Ok. repeat split; done.
  - apply extends_refl.
Defined.

End RegistryViews.

(* ===================================================================== *)
(** * More on webauthn-utils.js                                           *)
(* ===================================================================== *)

Module Credentials.
Import WebAuthnUtils.

Lemma strict_eq_Str (v : JS.value) (x : string) :
  JS.strict_eq v (JS.Str x) = true <-> v = JS.Str x.
Proof.
  destruct v; cbn; try (split; [discriminate | congruence]).
  rewrite String.eqb_eq. split; congruence.
Qed.

Lemma badFormat_false (c : JS.value) :
  badFormat c = false <->
  JS.truthy c = true
  /\ exists id response,
       JS.get c "id" = Some id /\ JS.truthy id = true
       /\ JS.get c "response" = Some response /\ JS.truthy response = true.
Proof.
  unfold badFormat. rewrite !orb_false_iff, !negb_false_iff. split.
  - intros [[Hc Hi] Hr]. split; [done|].
    destruct c; try discriminate; cbn in *; eauto 10.
  - intros (Hc & id & response & -> & Hi & -> & Hr). done.
Qed.

Section Verification.

Variable JSON_parse : Buffer.t -> option JS.value.
Variable this : WebAuthnUtils.t.

Local Abbreviation accepted := (accepted JSON_parse this).

Lemma registration_verified_iff (credential : JS.value)
    (expectedChallenge : string) (id publicKey : JS.value) (cnt : Z) :
  verifyRegistrationCredential JSON_parse this credential expectedChallenge
    = RegVerified id publicKey cnt
  <-> accepted credential expectedChallenge id publicKey /\ cnt = 0%Z.
Proof.
  unfold verifyRegistrationCredential, WebAuthnUtils.accepted, JS.prop, JS.bind,
    base64URLToBuffer_value, parseClientData.
  split.
  - intros H.
    destruct (badFormat credential) eqn:B; [discriminate|].
    apply badFormat_false in B as (Hc & i & r & Hi & Hti & Hr & Htr).
    rewrite Hi, Hr in H.
    destruct (JS.get r "clientDataJSON") as [[| | | |enc| |]|] eqn:E; try discriminate.
    destruct (JSON_parse (base64URLToBuffer enc)) as [cd|] eqn:P; [|discriminate].
    destruct (JS.get cd "challenge") as [ch|] eqn:C; [|discriminate].
    destruct (JS.strict_eq ch (JS.Str expectedChallenge)) eqn:SC; [|discriminate].
    cbn in H.
    destruct (JS.get cd "origin") as [og|] eqn:O; [|discriminate].
    destruct (JS.strict_eq og (JS.Str (origin this))) eqn:SO; [|discriminate].
    cbn in H.
    destruct (JS.get r "attestationObject") as [ao|] eqn:A; [|discriminate].
    apply strict_eq_Str in SC, SO. simplify_eq.
    repeat split; try done. eauto 10.
  - intros [(Hc & Hi & Hti & r & enc & cd & Hr & Htr & E & P & C & O & A) ->].
    assert (B : badFormat credential = false)
      by (apply badFormat_false; eauto 10).
    rewrite B, Hi, Hr, E, P, C. cbn.
    rewrite String.eqb_refl. cbn. rewrite O. cbn.
    rewrite String.eqb_refl. cbn. by rewrite A.
Qed.

(** X7. [verifyRegistrationCredential] answers [verified] exactly when
    the credential is an object with a truthy [id] and [response], the
    [clientDataJSON] of the response is a string whose decoding parses to
    a value with the expected challenge and the configured origin; it
    then returns that [id], the [attestationObject] and the counter 0. *)
Theorem verifyRegistrationCredential_verified (credential : JS.value)
    (expectedChallenge : string) (id publicKey : JS.value) (cnt : Z) :
  verifyRegistrationCredential JSON_parse this credential expectedChallenge
    = RegVerified id publicKey cnt
  <-> accepted credential expectedChallenge id publicKey /\ cnt = 0%Z.
Proof. apply registration_verified_iff. Qed.

(** X8. [verifyAuthenticationCredential] answers [verified] exactly when
    [verifyRegistrationCredential] would for the same response and
    challenge and, besides, the [id] of the response is strictly equal to
    the stored credential id; the counter it returns is the stored one
    plus 1. *)
Theorem verifyAuthenticationCredential_verified (credential : JS.value)
    (expectedChallenge : string) (stored : StoredCredential) (cnt : Z) :
  verifyAuthenticationCredential JSON_parse this credential expectedChallenge stored
    = AuthVerified cnt
  <-> (exists id publicKey,
         verifyRegistrationCredential JSON_parse this credential expectedChallenge
           = RegVerified id publicKey 0
         /\ JS.strict_eq id (credentialId stored) = true)
      /\ cnt = (counter stored + 1)%Z.
Proof.
  unfold verifyAuthenticationCredential, verifyRegistrationCredential, JS.prop, JS.bind,
    base64URLToBuffer_value, parseClientData.
  split.
  - intros H.
    destruct (badFormat credential) eqn:B; [discriminate|].
    apply badFormat_false in B as (Hc & i & r & Hi & Hti & Hr & Htr).
    rewrite Hi, Hr in *.
    destruct (JS.strict_eq i (credentialId stored)) eqn:SI; [|discriminate].
    cbn in H.
    destruct (JS.get r "clientDataJSON") as [[| | | |enc| |]|] eqn:E; try discriminate.
    destruct (JSON_parse (base64URLToBuffer enc)) as [cd|] eqn:P; [|discriminate].
    destruct (JS.get cd "challenge") as [ch|] eqn:C; [|discriminate].
    destruct (JS.strict_eq ch (JS.Str expectedChallenge)) eqn:SC; [|discriminate].
    cbn in H |- *.
    destruct (JS.get cd "origin") as [og|] eqn:O; [|discriminate].
    destruct (JS.strict_eq og (JS.Str (origin this))) eqn:SO; [|discriminate].
    cbn in H |- *. simplify_eq. split; [|done].
    assert (exists ao, JS.get r "attestationObject" = Some ao) as [ao ->].
    { destruct r; try discriminate; cbn; eauto. }
    eauto.
  - intros [(i & pk & H & SI) ->].
    destruct (badFormat credential) eqn:B; [discriminate|].
    destruct (JS.get credential "id") as [i'|] eqn:Hi; [|discriminate]. cbn in H |- *.
    destruct (JS.get credential "response") as [r|] eqn:Hr; [|discriminate].
    destruct (JS.get r "clientDataJSON") as [[| | | |enc| |]|] eqn:E; try discriminate.
    destruct (JSON_parse (base64URLToBuffer enc)) as [cd|] eqn:P; [|discriminate].
    destruct (JS.get cd "challenge") as [ch|] eqn:C; [|discriminate].
    destruct (JS.strict_eq ch (JS.Str expectedChallenge)) eqn:SC; [|discriminate].
    cbn in H.
    destruct (JS.get cd "origin") as [og|] eqn:O; [|discriminate].
    destruct (JS.strict_eq og (JS.Str (origin this))) eqn:SO; [|discriminate].
    cbn in H.
    destruct (JS.get r "attestationObject") as [ao|] eqn:A; [|discriminate].
    simplify_eq. by rewrite SI.
Qed.

Lemma auth_verified_id (credential : JS.value) (expectedChallenge : string)
    (stored : StoredCredential) (cnt : Z) :
  verifyAuthenticationCredential JSON_parse this credential expectedChallenge stored
    = AuthVerified cnt ->
  exists id, JS.get credential "id" = Some id
             /\ JS.strict_eq id (credentialId stored) = true.
Proof.
  unfold verifyAuthenticationCredential, JS.prop, JS.bind. intros H.
  destruct (badFormat credential); [discriminate|].
  destruct (JS.get credential "id") as [i|]; [|discriminate]. cbn in H.
  destruct (JS.strict_eq i (credentialId stored)) eqn:SI; [|discriminate]. eauto.
Qed.

Lemma authentication_verified_of_accepted (credential : JS.value)
    (expectedChallenge : string) (stored : StoredCredential) (id publicKey : JS.value) :
  accepted credential expectedChallenge id publicKey ->
  JS.strict_eq id (credentialId stored) = true ->
  verifyAuthenticationCredential JSON_parse this credential expectedChallenge stored
    = AuthVerified (counter stored + 1).
Proof.
  intros (Hc & Hi & Hti & r & enc & cd & Hr & Htr & E & P & C & O & A) SI.
  assert (B : badFormat credential = false) by (apply badFormat_false; eauto 10).
  unfold verifyAuthenticationCredential, JS.prop, JS.bind, base64URLToBuffer_value,
    parseClientData.
  rewrite B, Hi, SI, Hr, E, P, C. cbn.
  rewrite String.eqb_refl. cbn. rewrite O. cbn. by rewrite String.eqb_refl.
Qed.

(** X9. Failures of [verifyAuthenticationCredential] that do not depend
    on the client data: a credential that is falsy or lacks a truthy [id]
    or [response] fails with "Invalid credential format"; a well-formed
    one whose [id] is not strictly equal to the stored id fails with
    "Credential ID mismatch", whatever else it carries; and when the
    stored id is an array or an object no response is ever verified. *)
Theorem verifyAuthenticationCredential_id_gate (credential : JS.value)
    (expectedChallenge : string) (stored : StoredCredential) :
  (badFormat credential = true ->
     verifyAuthenticationCredential JSON_parse this credential expectedChallenge stored
       = AuthFailed (JS.Message "Invalid credential format"))
  /\ (forall id,
        badFormat credential = false -> JS.get credential "id" = Some id ->
        JS.strict_eq id (credentialId stored) = false ->
        verifyAuthenticationCredential JSON_parse this credential expectedChallenge stored
          = AuthFailed (JS.Message "Credential ID mismatch"))
  /\ ((exists l, credentialId stored = JS.Arr l) \/ (exists f, credentialId stored = JS.Obj f) ->
      forall cnt,
        verifyAuthenticationCredential JSON_parse this credential expectedChallenge stored
          <> AuthVerified cnt).
Proof.
  repeat split.
  - intros B. unfold verifyAuthenticationCredential. by rewrite B.
  - intros id B Hi SI. unfold verifyAuthenticationCredential, JS.prop, JS.bind.
    by rewrite B, Hi, SI.
  - intros Hs cnt H.
    apply auth_verified_id in H as (id & _ & SI).
    destruct Hs as [[l E]|[f E]]; rewrite E in SI; by destruct id.
Qed.

End Verification.

End Credentials.

(* ===================================================================== *)
(** * More on the base64url conversions                                   *)
(* ===================================================================== *)

Module Base64Facts.
Import Buffer Base64.

Lemma list_ascii_of_chars (l : list ascii) : list_ascii_of_string (chars l) = l.
Proof. induction l as [|c l IH]; cbn; [done | by rewrite IH]. Qed.

Lemma length_chars (l : list ascii) : String.length (chars l) = length l.
Proof. induction l as [|c l IH]; cbn; [done | by rewrite IH]. Qed.

Lemma urlSafe_class n : (n < 64)%N -> isUrlSafeChar (urlSafe (b64_char n)) = true.
Proof.
  intros Hn.
  by apply (below_64 (fun n => isUrlSafeChar (urlSafe (b64_char n)))) in Hn;
    [| by vm_compute].
Qed.

Lemma urlUnsafe_b64_char n : (n < 64)%N -> urlUnsafe (b64_char n) = b64_char n.
Proof.
  intros Hn.
  apply (below_64 (fun n => Ascii.eqb (urlUnsafe (b64_char n)) (b64_char n))) in Hn;
    [by apply Ascii.eqb_eq in Hn | by vm_compute].
Qed.

Lemma length_to_sextets (b : Buffer.t) :
  length (to_sextets b) = ((4 * length b + 2) / 3)%nat.
Proof.
  revert b.
  assert (H : forall b : Buffer.t,
             length (to_sextets b) = ((4 * length b + 2) / 3)%nat
             /\ (forall x, length (to_sextets (x :: b)) = ((4 * S (length b) + 2) / 3)%nat)
             /\ (forall x y, length (to_sextets (x :: y :: b))
                             = ((4 * S (S (length b)) + 2) / 3)%nat)).
  { induction b as [|z b (IH0 & IH1 & IH2)].
    - repeat split.
    - split; [apply IH1|]. split; [intros; apply IH2|].
      intros x y. cbn [to_sextets length]. rewrite IH0.
      generalize (length b). intros n.
      replace (4 * S (S (S n)) + 2)%nat with ((4 * n + 2) + 4 * 3)%nat by lia.
      rewrite Nat.div_add by lia. lia. }
  intros b. apply H.
Qed.

(** X10. The text [bufferToBase64URL] produces is URL-safe: every
    character is a letter, a digit, [-] or [_]; it holds no [+], [/] or
    [=]. *)
Theorem bufferToBase64URL_alphabet (b : Buffer.t) :
  forallb isUrlSafeChar (list_ascii_of_string (WebAuthnUtils.bufferToBase64URL b)) = true.
Proof.
  rewrite bufferToBase64URL_chars, list_ascii_of_chars, map_map.
  apply forallb_forall. intros c (n & <- & Hn)%in_map_iff.
  apply urlSafe_class.
  pose proof (to_sextets_below b) as F. rewrite Forall_forall in F.
  apply F. by apply list_elem_of_In.
Qed.

(** X11. The text [bufferToBase64URL] produces for [n] bytes has
    [(4 n + 2) / 3] characters: 43 for the 32 random bytes of a
    challenge. *)
Theorem bufferToBase64URL_length (b : Buffer.t) :
  String.length (WebAuthnUtils.bufferToBase64URL b) = ((4 * length b + 2) / 3)%nat.
Proof.
  by rewrite bufferToBase64URL_chars, length_chars, !length_map, length_to_sextets.
Qed.

Lemma toString_base64url_chars (b : Buffer.t) :
  toString_base64url b = chars (map urlSafe (map b64_char (to_sextets b))).
Proof. unfold toString_base64url. by rewrite !replace_all_chars, !map_map. Qed.

Lemma base64URLToBuffer_urlSafe (b : Buffer.t) :
  WebAuthnUtils.base64URLToBuffer (chars (map urlSafe (map b64_char (to_sextets b)))) = b.
Proof.
  unfold WebAuthnUtils.base64URLToBuffer, from_base64.
  rewrite urlUnsafe_chars by apply to_sextets_below.
  rewrite read_sextets_chars by apply to_sextets_below.
  apply of_to_sextets.
Qed.

(** X12. The challenge and the user id that [generateRegistrationOptions]
    sends, and the challenge [generateAuthenticationOptions] sends, are
    the texts [bufferToBase64URL] gives for the random bytes, and
    [base64URLToBuffer] decodes each back to those bytes; so different
    random bytes give different challenges. *)
Theorem options_carry_the_random_bytes (this : WebAuthnUtils.t)
    (userId random : Buffer.t) (userEmail userName : string) (ids : list JS.value) :
  let reg := WebAuthnUtils.generateRegistrationOptions this userId random userEmail userName in
  let auth := WebAuthnUtils.generateAuthenticationOptions this random ids in
  WebAuthnUtils.reg_challenge reg = WebAuthnUtils.bufferToBase64URL random
  /\ WebAuthnUtils.user_id reg = WebAuthnUtils.bufferToBase64URL userId
  /\ WebAuthnUtils.auth_challenge auth = WebAuthnUtils.bufferToBase64URL random
  /\ WebAuthnUtils.base64URLToBuffer (WebAuthnUtils.reg_challenge reg) = random
  /\ WebAuthnUtils.base64URLToBuffer (WebAuthnUtils.user_id reg) = userId
  /\ WebAuthnUtils.base64URLToBuffer (WebAuthnUtils.auth_challenge auth) = random
  /\ (forall random',
        WebAuthnUtils.reg_challenge
          (WebAuthnUtils.generateRegistrationOptions this userId random' userEmail userName)
        = WebAuthnUtils.reg_challenge reg -> random' = random).
Proof.
  cbn. rewrite !toString_base64url_chars, !bufferToBase64URL_chars,
    !base64URLToBuffer_urlSafe.
  repeat split. intros random' H.
  rewrite !toString_base64url_chars in H.
  by rewrite <- (base64URLToBuffer_urlSafe random'), H, base64URLToBuffer_urlSafe.
Qed.

Lemma repeat_plus c k1 k2 : JS.repeat c k1 ++ JS.repeat c k2 = JS.repeat c (k1 + k2).
Proof.
  induction k1 as [|k1 IH]; [done|].
  change (JS.repeat c (S k1) ++ JS.repeat c k2)
    with (String c (JS.repeat c k1 ++ JS.repeat c k2)).
  by rewrite IH.
Qed.

Lemma string_app_assoc (s t u : string) : (s ++ t) ++ u = s ++ (t ++ u).
Proof.
  induction s as [|x s IH]; [done|].
  change ((String x s ++ t) ++ u) with (String x ((s ++ t) ++ u)).
  change (String x s ++ (t ++ u)) with (String x (s ++ (t ++ u))).
  by rewrite IH.
Qed.

(** X13. [base64URLToBuffer] also reads standard base64: applied to
    [buffer.toString('base64')], with [+], [/] and padding, it gives the
    buffer back. *)
Theorem base64URLToBuffer_reads_base64 (b : Buffer.t) :
  WebAuthnUtils.base64URLToBuffer (toString_base64 b) = b.
Proof.
  unfold WebAuthnUtils.base64URLToBuffer, from_base64, toString_base64.
  rewrite !replace_all_app, !replace_all_chars, !replace_all_repeat by done.
  rewrite !map_map, string_app_assoc, repeat_plus.
  match goal with
  | |- context [map ?f (to_sextets b)] =>
      rewrite (map_ext_in f b64_char (to_sextets b))
  end.
  - rewrite read_sextets_chars by apply to_sextets_below. apply of_to_sextets.
  - intros n Hn%list_elem_of_In.
    pose proof (to_sextets_below b) as F. rewrite Forall_forall in F.
    exact (urlUnsafe_b64_char n (F n Hn)).
Qed.

End Base64Facts.

(* ===================================================================== *)
(** * More on the authentication router                                   *)
(* ===================================================================== *)

Module Router.
Import AuthRoutes Ceremony.

Lemma cleanup_challenges_eq now s m :
  (forall k, m !! k = match challenges s !! k with
                      | Some d => if (now >? expires d)%Z then None else Some d
                      | None => None
                      end) ->
  challenges (cleanupExpiredChallenges now s) = m.
Proof.
  intros H. apply map_eq. intros k. by rewrite cleanup_removes_expired, H.
Qed.

(** X14. The sweep [cleanupExpiredChallenges] keeps exactly the pending
    challenges whose expiry has not passed, never touches the stored
    credentials, and a later sweep subsumes an earlier one (so sweeping
    twice at one time is sweeping once). *)
Theorem sweep_keeps_the_unexpired (now : Z) (s : State) :
  (forall k d,
      challenges (cleanupExpiredChallenges now s) !! k = Some d
      <-> challenges s !! k = Some d /\ (now <= expires d)%Z)
  /\ localStorage (cleanupExpiredChallenges now s) = localStorage s
  /\ (forall later,
        (now <= later)%Z ->
        cleanupExpiredChallenges later (cleanupExpiredChallenges now s)
        = cleanupExpiredChallenges later s).
Proof.
  split; [|split; [reflexivity|]].
  - intros k d. rewrite cleanup_removes_expired. split.
    + destruct (challenges s !! k) as [d'|]; [|done].
      destruct (now >? expires d')%Z eqn:G; [done|]. intros [= <-]. split; [done | lia].
    + intros [-> Hle]. by assert ((now >? expires d)%Z = false) as -> by lia.
  - intros later Hl.
    assert (E : challenges (cleanupExpiredChallenges later (cleanupExpiredChallenges now s))
                = challenges (cleanupExpiredChallenges later s)).
    { apply cleanup_challenges_eq. intros k. rewrite !cleanup_removes_expired.
      destruct (challenges s !! k) as [d|]; [|done].
      destruct (now >? expires d)%Z eqn:G; [|done].
      by assert ((later >? expires d)%Z = true) as -> by lia. }
    unfold cleanupExpiredChallenges in *. cbn in *. by rewrite E.
Qed.

Section WithRuntime.

Variable webauthn : WebAuthnUtils.t.
Variable JSON_parse : Buffer.t -> option JS.value.
Variable JWT_SECRET : string.
Variable jwt_sign : TokenPayload -> string -> SignOptions -> string.

Local Abbreviation register_begin := (register_begin webauthn).
Local Abbreviation login_begin := (login_begin webauthn).
Local Abbreviation register_complete := (register_complete webauthn JSON_parse).
Local Abbreviation login_complete :=
  (login_complete webauthn JSON_parse JWT_SECRET jwt_sign).
Local Abbreviation run := (run webauthn JSON_parse JWT_SECRET jwt_sign).
Local Abbreviation runAll := (runAll webauthn JSON_parse JWT_SECRET jwt_sign).

Lemma delete_cleanup k now s :
  delete k (challenges (cleanupExpiredChallenges now s))
  = challenges (cleanupExpiredChallenges now (consume k s)).
Proof.
  apply map_eq. intros j. cbn.
  destruct (decide (k = j)) as [<-|Hne].
  - rewrite lookup_delete_eq. symmetry. apply map_lookup_filter_None. left.
    apply lookup_delete_eq.
  - rewrite lookup_delete_ne by done.
    pose proof (cleanup_removes_expired now s j) as E1.
    pose proof (cleanup_removes_expired now (consume k s) j) as E2.
    cbn in E1, E2. rewrite E1, E2, lookup_delete_ne by done. done.
Qed.

(** X15. The sweep and a [complete] request. For a pending challenge the
    sweep keeps, a [complete] request answers the same whether the sweep
    ran before it or after it, and ends in the same state. For one whose
    expiry has passed, the request answers "Challenge expired" when it
    comes before the sweep and "Invalid or expired challenge" when it
    comes after. *)
Theorem sweep_and_complete (c : JS.value) (k : string) (swept now t : Z)
    (s : State) (d : ChallengeData) :
  wellFormed c k ->
  challenges s !! k = Some d ->
  ((swept <= expires d)%Z ->
     register_complete c k now t (cleanupExpiredChallenges swept s)
       = ((register_complete c k now t s).1,
          cleanupExpiredChallenges swept (register_complete c k now t s).2)
     /\ login_complete c k now t (cleanupExpiredChallenges swept s)
        = ((login_complete c k now t s).1,
           cleanupExpiredChallenges swept (login_complete c k now t s).2))
  /\ ((swept > expires d)%Z -> (swept <= now)%Z ->
      (register_complete c k now t s).1 = Expired
      /\ (login_complete c k now t s).1 = Expired
      /\ (register_complete c k now t (cleanupExpiredChallenges swept s)).1 = NotFound
      /\ (login_complete c k now t (cleanupExpiredChallenges swept s)).1 = NotFound).
Proof.
  intros W Hd. split.
  - intros Hle.
    assert (Hk : challenges (cleanupExpiredChallenges swept s) !! k = Some d).
    { rewrite cleanup_removes_expired, Hd.
      by assert ((swept >? expires d)%Z = false) as -> by lia. }
    pose proof (delete_cleanup k swept s) as Dc.
    unfold AuthRoutes.register_complete, AuthRoutes.login_complete.
    rewrite (wellFormed_passes c k W), Hk, Hd.
    change (localStorage (cleanupExpiredChallenges swept s)) with (localStorage s).
    split; repeat case_match; cbn; unfold cleanupExpiredChallenges in *; cbn in *;
      by rewrite Dc.
  - intros Hgt Hnow.
    assert (Hk : challenges (cleanupExpiredChallenges swept s) !! k = None).
    { rewrite cleanup_removes_expired, Hd.
      by assert ((swept >? expires d)%Z = true) as -> by lia. }
    unfold AuthRoutes.register_complete, AuthRoutes.login_complete.
    rewrite (wellFormed_passes c k W), Hk, Hd.
    by assert ((now >? expires d)%Z = true) as -> by lia.
Qed.

End WithRuntime.

Lemma sweep_and_complete_witness :
  (AuthRoutes.login_complete WebAuthnUtils.defaults sampleParse "secret" sampleSign
     sampleCredential sampleKey 1700000300002 1700000300003 sampleState).1 = Expired
  /\ (AuthRoutes.login_complete WebAuthnUtils.defaults sampleParse "secret" sampleSign
        sampleCredential sampleKey 1700000300002 1700000300003
        (cleanupExpiredChallenges 1700000300001 sampleState)).1 = NotFound.
Proof.
  destruct (sweep_and_complete WebAuthnUtils.defaults sampleParse "secret" sampleSign
              sampleCredential sampleKey 1700000300001 1700000300002 1700000300003
              sampleState
              {| challenge := sampleChallenge; email := "a@x.com"; name := None;
                 expires := 1700000300000 |} sample_wellFormed eq_refl) as [_ H].
  destruct H as (_ & H1 & _ & H2); [reflexivity | discriminate | exact (conj H1 H2)].
Defined.

Section Ceremonies.

Variable webauthn : WebAuthnUtils.t.
Variable JSON_parse : Buffer.t -> option JS.value.
Variable JWT_SECRET : string.
Variable jwt_sign : TokenPayload -> string -> SignOptions -> string.

Local Abbreviation register_begin := (register_begin webauthn).
Local Abbreviation login_begin := (login_begin webauthn).
Local Abbreviation register_complete := (register_complete webauthn JSON_parse).
Local Abbreviation login_complete :=
  (login_complete webauthn JSON_parse JWT_SECRET jwt_sign).
Local Abbreviation run := (run webauthn JSON_parse JWT_SECRET jwt_sign).
Local Abbreviation runAll := (runAll webauthn JSON_parse JWT_SECRET jwt_sign).
Local Abbreviation accepted := (WebAuthnUtils.accepted JSON_parse webauthn).

Lemma emailRegex_empty : emailRegex_test "" = false.
Proof. reflexivity. Qed.

Lemma missing_false (x : string) : x <> "" -> missing x = false.
Proof. intros H. unfold missing. by apply String.eqb_neq. Qed.

(** X16. Which [begin] request an e-mail can make. With an empty or
    ill-formed e-mail, [/register/begin], [/login/begin] and
    [/check-credentials] all answer 400 and change nothing. With a
    well-formed one (and a name), [/register/begin] succeeds exactly when
    no credential is stored for it, otherwise answering 400 "User already
    has biometric credentials registered"; [/login/begin] succeeds
    exactly when one is stored, otherwise answering 404 "No biometric
    credentials found for this user"; a refused request changes nothing;
    and [/check-credentials] reports which of the two it is. *)
Theorem begin_requests_are_gated (email name : string) (u r : Buffer.t)
    (now now' : Z) (s : State) :
  (email = "" \/ emailRegex_test email = false ->
     status (register_begin email name u r now now' s).1 = 400
     /\ (register_begin email name u r now now' s).2 = s
     /\ status (login_begin email r now now' s).1 = 400
     /\ (login_begin email r now now' s).2 = s
     /\ check_status (check_credentials email s) = 400)
  /\ (emailRegex_test email = true -> name <> "" ->
      localStorage s !! storageKey email = None ->
      succeeded (register_begin email name u r now now' s).1
      /\ login_begin email r now now' s
         = (fail 404 "No biometric credentials found for this user", s)
      /\ check_credentials email s
         = {| check_status := 200; check_body := HasCredentials false |})
  /\ (emailRegex_test email = true -> name <> "" ->
      is_Some (localStorage s !! storageKey email) ->
      succeeded (login_begin email r now now' s).1
      /\ register_begin email name u r now now' s
         = (fail 400 "User already has biometric credentials registered", s)
      /\ check_credentials email s
         = {| check_status := 200; check_body := HasCredentials true |}).
Proof.
  unfold AuthRoutes.register_begin, AuthRoutes.login_begin, check_credentials, succeeded.
  split; [|split].
  - intros [-> | E]; [done|]. rewrite E. cbn.
    destruct (missing email), (missing name); done.
  - intros E Hn Hs.
    assert (He : email <> "") by (intros ->; discriminate E).
    by rewrite (missing_false _ He), (missing_false _ Hn), E, Hs.
  - intros E Hn [c Hs].
    assert (He : email <> "") by (intros ->; discriminate E).
    by rewrite (missing_false _ He), (missing_false _ Hn), E, Hs.
Qed.

Lemma minted_key_not_empty (prefix email stamp : string) :
  prefix <> "" -> prefix ++ email ++ "_" ++ stamp <> "".
Proof. destruct prefix; [done | discriminate]. Qed.

(** X17. What a [begin] request does to the two stores. It never writes
    a credential; refused, it changes nothing; accepted, it stores one
    pending challenge under the key it returns: the challenge text sent
    in the options, for the given e-mail, expiring five minutes after
    the second clock reading. [/login/begin] lists the stored credential
    id as the only allowed credential. *)
Theorem begin_stores_one_challenge (email name : string) (u r : Buffer.t)
    (now now' : Z) (s : State) :
  localStorage (register_begin email name u r now now' s).2 = localStorage s
  /\ localStorage (login_begin email r now now' s).2 = localStorage s
  /\ (~ succeeded (register_begin email name u r now now' s).1 ->
      (register_begin email name u r now now' s).2 = s)
  /\ (~ succeeded (login_begin email r now now' s).1 ->
      (login_begin email r now now' s).2 = s)
  /\ (succeeded (register_begin email name u r now now' s).1 ->
      exists options,
        (register_begin email name u r now now' s).1
          = ok (RegistrationOptionsSent options ("challenge_" ++ email ++ "_" ++ pretty now))
        /\ WebAuthnUtils.reg_challenge options = Buffer.toString_base64url r
        /\ WebAuthnUtils.user_name options = email
        /\ challenges (register_begin email name u r now now' s).2
           = <["challenge_" ++ email ++ "_" ++ pretty now :=
                 {| challenge := Buffer.toString_base64url r; email := email;
                    name := Some name; expires := now' + 300000 |}]> (challenges s))
  /\ (succeeded (login_begin email r now now' s).1 ->
      exists options stored,
        (login_begin email r now now' s).1
          = ok (AuthenticationOptionsSent options
                  ("auth_challenge_" ++ email ++ "_" ++ pretty now))
        /\ localStorage s !! storageKey email = Some stored
        /\ WebAuthnUtils.auth_challenge options = Buffer.toString_base64url r
        /\ map WebAuthnUtils.cred_id (WebAuthnUtils.allowCredentials options)
           = [credentialId stored]
        /\ challenges (login_begin email r now now' s).2
           = <["auth_challenge_" ++ email ++ "_" ++ pretty now :=
                 {| challenge := Buffer.toString_base64url r; email := email;
                    name := None; expires := now' + 300000 |}]> (challenges s)).
Proof.
  unfold AuthRoutes.register_begin, AuthRoutes.login_begin, succeeded.
  destruct (missing email), (missing name), (emailRegex_test email),
    (localStorage s !! storageKey email) as [stored|]; cbn;
    repeat split; try done; try (intros; cbn in *; lia);
    intros _; eexists; try eexists; repeat split; reflexivity.
Qed.

Lemma accepted_truthy c ch id pk : accepted c ch id pk -> JS.truthy c = true.
Proof. by intros [H _]. Qed.




Lemma login_complete_accepts c k t authenticated s d old id pk :
  k <> "" -> challenges s !! k = Some d -> (t <= expires d)%Z ->
  localStorage s !! storageKey (email d) = Some old ->
  accepted c (challenge d) id pk ->
  JS.strict_eq id (credentialId old) = true ->
  login_complete c k t authenticated s
  = (ok (Authenticated
           (jwt_sign {| tok_email := email d; tok_name := cred_name old;
                        authenticatedAt := authenticated; authMethod := "webauthn" |}
                     JWT_SECRET
                     {| expiresIn := "24h"; issuer := "decentralized-identity-system";
                        audience := "user" |})
           (email d) (cred_name old)),
     {| challenges := delete k (challenges s);
        localStorage := <[storageKey (email d) := bumped old]> (localStorage s) |}).
Proof.
  intros Hk Hd Ht Ho Ha SI. unfold AuthRoutes.login_complete.
  rewrite (accepted_truthy _ _ _ _ Ha), (missing_false _ Hk), Hd. cbn.
  assert ((t >? expires d)%Z = false) as -> by lia.
  rewrite Ho.
  by rewrite (Credentials.authentication_verified_of_accepted JSON_parse webauthn
                c (challenge d)
                {| WebAuthnUtils.credentialId := credentialId old;
                   WebAuthnUtils.counter := counter old |} id pk Ha SI).
Qed.

(** X19. The authentication ceremony, end to end. For an e-mail with a
    stored credential, after [/login/begin] a [/login/complete] with the
    returned key, made before the expiry, whose response has the stored
    credential id and carries the challenge that was sent and the
    configured origin, answers 200 with the token [jwt.sign] gives for
    (e-mail, stored name, time, "webauthn") under the options
    [expiresIn: '24h'], issuer and audience; the stored counter has gone
    up by one, nothing else of the credential has changed, and the
    challenge is consumed. *)
Theorem authentication_ceremony (email : string) (r : Buffer.t)
    (now now' t authenticated : Z) (s : State) (old : CredentialData)
    (c id pk : JS.value) :
  emailRegex_test email = true ->
  localStorage s !! storageKey email = Some old ->
  accepted c (WebAuthnUtils.bufferToBase64URL r) id pk ->
  JS.strict_eq id (credentialId old) = true ->
  (t <= now' + 300000)%Z ->
  let k := "auth_challenge_" ++ email ++ "_" ++ pretty now in
  login_complete c k t authenticated (login_begin email r now now' s).2
  = (ok (Authenticated
           (jwt_sign {| tok_email := email; tok_name := cred_name old;
                        authenticatedAt := authenticated; authMethod := "webauthn" |}
                     JWT_SECRET
                     {| expiresIn := "24h"; issuer := "decentralized-identity-system";
                        audience := "user" |})
           email (cred_name old)),
     {| challenges := delete k (challenges s);
        localStorage := <[storageKey email := bumped old]> (localStorage s) |}).
Proof.
  intros E Hs Ha SI Ht k.
  assert (He : email <> "") by (intros ->; discriminate E).
  assert (Hb : (login_begin email r now now' s).2
               = {| challenges :=
                      <[k := {| challenge := Buffer.toString_base64url r; email := email;
                                name := None; expires := now' + 5 * 60 * 1000 |}]>
                        (challenges s);
                    localStorage := localStorage s |}).
  { unfold AuthRoutes.login_begin. by rewrite (missing_false _ He), E, Hs. }
  rewrite Hb.
  rewrite (login_complete_accepts c k t authenticated _
             {| challenge := Buffer.toString_base64url r; email := email;
                name := None; expires := now' + 5 * 60 * 1000 |} old id pk).
  - cbn [challenges localStorage AuthRoutes.email AuthRoutes.name]. rewrite delete_insert_eq. reflexivity.
  - by apply minted_key_not_empty.
  - apply lookup_insert_eq.
  - cbn [expires]. lia.
  - exact Hs.
  - cbn [challenge]. rewrite Base64Facts.toString_base64url_chars.
    rewrite Base64.bufferToBase64URL_chars in Ha. exact Ha.
  - exact SI.
Qed.














End Ceremonies.



(** The state with the credential the sample registration stored. *)
Lemma sample_stored :
  localStorage sampleState !! storageKey "a@x.com"
  = Some {| credentialId := JS.Str "cred-1"; publicKey := JS.Undefined; counter := 4;
            cred_email := "a@x.com"; cred_name := Some "Asha";
            registeredAt := 1690000000000 |}.
Proof. reflexivity. Qed.

Lemma sample_accepted_login :
  WebAuthnUtils.accepted (echoParse "Bw") WebAuthnUtils.defaults
    (JS.Obj [("id", JS.Str "cred-1");
             ("response", JS.Obj [("clientDataJSON", JS.Str "e30")])])
    (WebAuthnUtils.bufferToBase64URL [x07]) (JS.Str "cred-1") JS.Undefined.
Proof.
  split; [reflexivity|]. split; [reflexivity|]. split; [reflexivity|].
  eexists _, _, _. repeat split; reflexivity.
Qed.

Lemma authentication_ceremony_witness :
  (AuthRoutes.login_complete WebAuthnUtils.defaults (echoParse "Bw") "secret" sampleSign
     (JS.Obj [("id", JS.Str "cred-1");
              ("response", JS.Obj [("clientDataJSON", JS.Str "e30")])])
     "auth_challenge_a@x.com_1700000000600" 1700000001000 1700000001001
     (AuthRoutes.login_begin WebAuthnUtils.defaults "a@x.com" [x07]
        1700000000600 1700000000601 sampleState).2).1
  = ok (Authenticated "header.payload.signature" "a@x.com" (Some "Asha")).
Proof.
  pose proof (authentication_ceremony WebAuthnUtils.defaults (echoParse "Bw") "secret"
                sampleSign "a@x.com" [x07] 1700000000600 1700000000601
                1700000001000 1700000001001 sampleState _ _ _ _
                eq_refl sample_stored sample_accepted_login eq_refl) as H.
  cbv zeta in H.
  change ("auth_challenge_" ++ "a@x.com" ++ "_" ++ pretty 1700000000600%Z)
    with "auth_challenge_a@x.com_1700000000600" in H.
  rewrite H; [reflexivity | lia].
Defined.


Lemma splitAt_Some c l before after :
  splitAt c l = Some (before, after) -> l = (before ++ c :: after)%list /\ c ∉ before.
Proof.
  revert before. induction l as [|x l IH]; intros before; cbn; [done|].
  destruct (Ascii.eqb x c) eqn:E.
  - apply Ascii.eqb_eq in E as ->. intros [= <- <-]. split; [done|]. apply not_elem_of_nil.
  - destruct (splitAt c l) as [[b a]|]; [|done]. intros [= <- <-].
    destruct (IH b eq_refl) as [-> Hn]. split; [done|].
    apply not_elem_of_cons. split; [|done]. intros ->. by rewrite Ascii.eqb_refl in E.
Qed.

Lemma splitAt_None c l : c ∉ l -> splitAt c l = None.
Proof.
  induction l as [|x l IH]; [done|]. intros [Hx Hl]%not_elem_of_cons. cbn.
  destruct (Ascii.eqb x c) eqn:E; [by apply Ascii.eqb_eq in E as ->|].
  by rewrite IH.
Qed.

Lemma splitAt_app c before after :
  c ∉ before -> splitAt c (before ++ c :: after)%list = Some (before, after).
Proof.
  induction before as [|x l IH]; cbn.
  - by rewrite Ascii.eqb_refl.
  - intros [Hx Hl]%not_elem_of_cons.
    destruct (Ascii.eqb x c) eqn:E; [by apply Ascii.eqb_eq in E as ->|].
    by rewrite IH.
Qed.

Lemma list_ascii_of_string_app (s t : string) :
  list_ascii_of_string (s ++ t) = (list_ascii_of_string s ++ list_ascii_of_string t)%list.
Proof.
  induction s as [|x s IH]; [done|].
  change (String x s ++ t) with (String x (s ++ t)). cbn. by rewrite IH.
Qed.

Lemma length_list_ascii (s : string) : length (list_ascii_of_string s) = String.length s.
Proof. induction s as [|x s IH]; cbn; [done | by rewrite IH]. Qed.

Lemma secondField_two (scheme tok : string) :
  " "%char ∉ list_ascii_of_string scheme -> " "%char ∉ list_ascii_of_string tok ->
  secondField (scheme ++ " " ++ tok) = Some tok.
Proof.
  intros Hs Ht. unfold secondField.
  rewrite list_ascii_of_string_app. change (list_ascii_of_string (" " ++ tok))
    with (" "%char :: list_ascii_of_string tok).
  rewrite (splitAt_app _ _ _ Hs), (splitAt_None _ _ Ht).
  by rewrite string_of_list_ascii_of_string.
Qed.

Lemma secondField_more (scheme tok rest : string) :
  " "%char ∉ list_ascii_of_string scheme -> " "%char ∉ list_ascii_of_string tok ->
  secondField (scheme ++ " " ++ tok ++ " " ++ rest) = Some tok.
Proof.
  intros Hs Ht. unfold secondField.
  rewrite list_ascii_of_string_app. change (list_ascii_of_string (" " ++ tok ++ " " ++ rest))
    with (" "%char :: list_ascii_of_string (tok ++ " " ++ rest)).
  rewrite (splitAt_app _ _ _ Hs), list_ascii_of_string_app.
  change (list_ascii_of_string (" " ++ rest)) with (" "%char :: list_ascii_of_string rest).
  rewrite (splitAt_app _ _ _ Ht).
  by rewrite string_of_list_ascii_of_string.
Qed.

Lemma missing_app_space (scheme rest : string) : missing (scheme ++ " " ++ rest) = false.
Proof. by destruct scheme. Qed.

(** X22. The middleware [verifyToken] takes as token the second
    space-separated word of the [Authorization] header, whatever the
    first word is and whatever follows the second. Without a header, or
    with a header that has no space or an empty second word, it answers
    401 "Access token required" without consulting [jwt.verify];
    otherwise it passes the decoded payload on when [jwt.verify] accepts
    the token and answers 403 "Invalid or expired token" when it throws. *)
Theorem verifyToken_reads_second_word (Decoded : Type) (JWT_SECRET : string)
    (jwt_verify : string -> string -> option Decoded) :
  verifyToken Decoded JWT_SECRET jwt_verify None = Answer Decoded 401 "Access token required"
  /\ (forall header,
        " "%char ∉ list_ascii_of_string header ->
        verifyToken Decoded JWT_SECRET jwt_verify (Some header)
        = Answer Decoded 401 "Access token required")
  /\ (forall scheme tok rest,
        " "%char ∉ list_ascii_of_string scheme -> " "%char ∉ list_ascii_of_string tok ->
        let outcome :=
          if missing tok then Answer Decoded 401 "Access token required"
          else match jwt_verify tok JWT_SECRET with
               | Some decoded => Next Decoded decoded
               | None => Answer Decoded 403 "Invalid or expired token"
               end in
        verifyToken Decoded JWT_SECRET jwt_verify (Some (scheme ++ " " ++ tok)) = outcome
        /\ verifyToken Decoded JWT_SECRET jwt_verify
             (Some (scheme ++ " " ++ tok ++ " " ++ rest)) = outcome).
Proof.
  split; [reflexivity|]. split.
  - intros header Hh. unfold verifyToken, secondField.
    rewrite (splitAt_None _ _ Hh). by destruct (missing header).
  - intros scheme tok rest Hs Ht outcome. unfold verifyToken.
    by rewrite !missing_app_space, secondField_two, secondField_more.
Qed.

Lemma verifyToken_reads_second_word_witness :
  verifyToken bool "secret" (fun tok _ => if String.eqb tok "good" then Some true else None)
    (Some ("Basic" ++ " " ++ "good"))
  = Next bool true.
Proof.
  destruct (verifyToken_reads_second_word bool "secret"
              (fun tok _ => if String.eqb tok "good" then Some true else None))
    as (_ & _ & H).
  destruct (H "Basic" "good" "") as [H1 _].
  - intros C. repeat (apply elem_of_cons in C as [C|C]; [discriminate C|]). inversion C.
  - intros C. repeat (apply elem_of_cons in C as [C|C]; [discriminate C|]). inversion C.
  - exact H1.
Defined.

Lemma plainChar_true c : plainChar c = true -> isSpace c = false /\ c <> "@"%char.
Proof.
  unfold plainChar. intros [H1 H2]%andb_true_iff.
  apply negb_true_iff in H1, H2. split; [done|]. intros ->. by rewrite Ascii.eqb_refl in H2.
Qed.

Lemma removelast_subset {A} (l : list A) x : In x (removelast l) -> In x l.
Proof.
  induction l as [|y l IH]; [done|]. cbn. destruct l as [|z l]; [done|].
  intros [->|H]; [by left | right; by apply IH].
Qed.

Lemma removelast_length {A} (l : list A) x :
  In x (removelast l) -> (2 <= length l)%nat.
Proof. destruct l as [|y [|z l]]; cbn; [done | done | lia]. Qed.

(** X23. What the e-mail pattern of the router accepts. An accepted
    e-mail is a non-empty local part, one [@], and a domain of at least
    three characters that holds a dot; it holds no second [@] and no
    white space, and is at least five characters long. *)
Theorem emailRegex_accepts (email : string) :
  emailRegex_test email = true ->
  exists local domain,
    list_ascii_of_string email = (local ++ "@"%char :: domain)%list
    /\ local <> []
    /\ ("@"%char ∉ local) /\ ("@"%char ∉ domain)
    /\ ("."%char ∈ domain) /\ (3 <= length domain)%nat
    /\ Forall (fun c => isSpace c = false) (list_ascii_of_string email)
    /\ (5 <= String.length email)%nat.
Proof.
  unfold emailRegex_test.
  destruct (splitAt "@" (list_ascii_of_string email)) as [[local domain]|] eqn:E; [|done].
  apply splitAt_Some in E as [E Hn].
  intros [[[Hl Fl]%andb_true_iff Fd]%andb_true_iff Hd]%andb_true_iff.
  rewrite forallb_forall in Fl, Fd.
  assert (Hlen : local <> []) by (by destruct local).
  destruct domain as [|d0 rest]; [done|].
  apply existsb_exists in Hd as (x & Hx & ->%Ascii.eqb_eq).
  exists local, (d0 :: rest). rewrite E.
  repeat split; try done.
  - intros H%list_elem_of_In. by destruct (plainChar_true _ (Fd _ H)).
  - right. apply list_elem_of_In. by apply removelast_subset.
  - apply removelast_length in Hx. cbn. lia.
  - apply Forall_app. split.
    + apply Forall_forall. intros c Hc%list_elem_of_In.
      by destruct (plainChar_true _ (Fl _ Hc)).
    + constructor; [reflexivity|].
      apply Forall_forall. intros c Hc%list_elem_of_In.
      by destruct (plainChar_true _ (Fd _ Hc)).
  - rewrite <- length_list_ascii, E, length_app. cbn.
    apply removelast_length in Hx. destruct local; [done | cbn; lia].
Qed.

Lemma emailRegex_accepts_witness :
  exists local domain,
    list_ascii_of_string "a@x.com" = (local ++ "@"%char :: domain)%list
    /\ local <> []
    /\ ("@"%char ∉ local) /\ ("@"%char ∉ domain)
    /\ ("."%char ∈ domain) /\ (3 <= length domain)%nat
    /\ Forall (fun c => isSpace c = false) (list_ascii_of_string "a@x.com")
    /\ (5 <= String.length "a@x.com")%nat.
Proof. apply (emailRegex_accepts "a@x.com"). reflexivity. Defined.

End Router.
